(** * Isolation forest: a shallow embedding of [IsolationForest.hpp]

    The header defines three layers: [INode] (a split value and two child
    indices), [ITree] (a flat, append-only vector of nodes built by recursive
    random partitioning, queried by [path_length]) and [IForest] (a vector of
    trees, built on shuffled copies of the data, queried by [score]).

    Conventions of the embedding.
    - [size_type] is [std::int64_t], the default of the template, held in
      [Z].  Depths and range bounds stay far from the ends of its range;
      [std::size_t] arithmetic that can wrap (in [root_id] and [shuffle]) is
      written out modulo [2^64], and the lemmas about [root_id] ask that the
      node vector [fits] the index type.
    - [value_type] is a type class [FloatingPoint]; the functions of <cmath>
      are a second class [CMath].  IEEE binary64 ([double]) is an instance of
      the first one through the kernel's primitive floats, and of the second
      one through [double_cmath]: [std::log] and [std::pow] have the value
      Annex F of the C standard fixes where it fixes one, and are the
      platform's functions, two parameters, elsewhere.  The real numbers are
      an instance of both.
    - [assert] aborts unless NDEBUG is defined; [path_length] and [score]
      take that build setting as the flag [ndebug].
    - Undefined behaviour (an access outside a vector, a remainder by zero),
      a failed [assert], an exception leaving a constructor and an exhausted
      recursion budget are the faults of an error monad [outcome].
    - [rand()] is an oracle [rand : nat -> Z] together with the number of
      calls made so far, which is part of the state.
    - Vectors live in a store of buffers; a local vector is allocated on top
      of the store and released when its function returns, and a [std::span]
      or an iterator pair names the buffer it views. *)

From Stdlib Require Import ZArith Lia Bool List Floats Uint63 Reals Lra.
From stdpp Require Import base list.

Set Warnings "-inexact-float".
Local Open Scope Z_scope.

(** * The program

    ** Faults and the error monad *)

Inductive fault : Type :=
| UndefinedBehaviour   (* out-of-bounds access, remainder by zero *)
| AssertionFailed      (* [assert] with NDEBUG not defined *)
| LengthError          (* [std::length_error] thrown by [reserve] *)
| BadAlloc             (* [std::bad_alloc] thrown by [reserve] *)
| OutOfFuel.           (* the recursion budget of the model ran out *)

Inductive outcome (A : Type) : Type :=
| Ok (a : A)
| Fault (f : fault).

Arguments Ok {A} a.
Arguments Fault {A} f.

#[export] Instance outcome_ret : MRet outcome := fun A a => Ok a.
#[export] Instance outcome_bind : MBind outcome := fun A B k m =>
  match m with
  | Ok a => k a
  | Fault f => Fault f
  end.

(** An access [v[i]] with [i] already cast to [std::size_t]. *)
Definition at_index {A : Type} (v : list A) (i : nat) : outcome A :=
  match v !! i with
  | Some x => Ok x
  | None => Fault UndefinedBehaviour
  end.

(** [static_cast<std::size_t>(i)] followed by [v[...]]: a negative [i] wraps
    to an index no vector can hold. *)
Definition at_signed {A : Type} (v : list A) (i : Z) : outcome A :=
  if i <? 0 then Fault UndefinedBehaviour else at_index v (Z.to_nat i).

(** [std::iter_swap(v.begin() + i, v.begin() + j)]. *)
Definition iter_swap {A : Type} (v : list A) (i j : nat) : outcome (list A) :=
  x ← at_index v i;
  y ← at_index v j;
  Ok (<[j := x]> (<[i := y]> v)).

(** ** The value type *)

Class FloatingPoint (T : Type) : Type := {
  fp_lt : T -> T -> bool;          (* operator< *)
  fp_zero : T;                     (* value_type{} *)
  fp_cast : Z -> T;                (* static_cast<value_type>(size_type) *)
  fp_add : T -> T -> T;
  fp_sub : T -> T -> T;
  fp_mul : T -> T -> T;
  fp_div : T -> T -> T;
  fp_two : T;                      (* static_cast<value_type>(2.0) *)
  fp_euler : T                     (* static_cast<value_type>(0.5772156649) *)
}.

Class CMath (T : Type) : Type := {
  cm_log : T -> T;                 (* std::log *)
  cm_pow : T -> T -> T             (* std::pow *)
}.

(** [double]: the conversion of an integer, a [size_type] or a
    [std::size_t], rounds to the nearest binary64 number, ties to even. *)
Definition double_of_Z (z : Z) : float :=
  SF2Prim (binary_normalize prec emax z 0 false).

#[export] Instance double_fp : FloatingPoint float := {|
  fp_lt := PrimFloat.ltb;
  fp_zero := 0%float;
  fp_cast := double_of_Z;
  fp_add := PrimFloat.add;
  fp_sub := PrimFloat.sub;
  fp_mul := PrimFloat.mul;
  fp_div := PrimFloat.div;
  fp_two := 2%float;
  fp_euler := 0.5772156649%float
|}.

(** [std::log] on [double] where Annex F (F.10.3.7) fixes its value: a NaN
    for a NaN or a negative argument, minus infinity at a zero, [+0] at [1]
    and infinity at infinity. *)
Definition log_special (x : float) : option float :=
  if PrimFloat.is_nan x then Some PrimFloat.nan
  else if PrimFloat.is_zero x then Some PrimFloat.neg_infinity
  else if PrimFloat.ltb x 0 then Some PrimFloat.nan
  else if PrimFloat.eqb x 1 then Some 0%float
  else if PrimFloat.eqb x PrimFloat.infinity then Some PrimFloat.infinity
  else None.

(** [std::pow] on [double] where Annex F (F.10.4.4) fixes its value for a
    base of one or an exponent that is a zero, a NaN or an infinity:
    [pow(x, 0) = pow(1, y) = 1] even for a NaN; otherwise a NaN for a NaN
    argument; [pow(-1, inf) = 1]; and for an infinite exponent infinity or
    [+0], by the side of one the magnitude of the base lies on. *)
Definition pow_special (x y : float) : option float :=
  if PrimFloat.is_zero y || PrimFloat.eqb x 1 then Some 1%float
  else if PrimFloat.is_nan x || PrimFloat.is_nan y then Some PrimFloat.nan
  else if PrimFloat.is_infinity y then
    if PrimFloat.eqb (PrimFloat.abs x) 1 then Some 1%float
    else if xorb (PrimFloat.ltb (PrimFloat.abs x) 1) (PrimFloat.ltb y 0)
         then Some 0%float
         else Some PrimFloat.infinity
  else None.

(** <cmath> on [double]: the special values above, and the platform's
    functions [libm_log] and [libm_pow] for every other argument. *)
Definition double_cmath (libm_log : float -> float) (libm_pow : float -> float -> float)
    : CMath float := {|
  cm_log x := match log_special x with Some r => r | None => libm_log x end;
  cm_pow x y := match pow_special x y with Some r => r | None => libm_pow x y end
|}.

(** Exact real arithmetic, the idealisation the formulas of the algorithm
    are written for; it also provides the functions of <cmath>. *)
Definition real_lt (x y : R) : bool := if Rlt_dec x y then true else false.

#[export] Instance real_fp : FloatingPoint R := {|
  fp_lt := real_lt;
  fp_zero := 0%R;
  fp_cast := IZR;
  fp_add := Rplus;
  fp_sub := Rminus;
  fp_mul := Rmult;
  fp_div := Rdiv;
  fp_two := 2%R;
  fp_euler := (5772156649 / 10000000000)%R
|}.

#[export] Instance real_cmath : CMath R := {|
  cm_log := ln;
  cm_pow := Rpower
|}.

(** ** Nodes and trees *)

Section Tree.
Context {T : Type} `{FloatingPoint T}.

Record INode : Type := mkNode {
  split_value : T;
  left : Z;
  right : Z
}.

(** [node_type{}]: the default member initialisers. *)
Definition default_node : INode :=
  {| split_value := fp_zero; left := -1; right := -1 |}.

Record ITree : Type := mkTree {
  tree : list INode;
  max_depth : Z
}.

(** The tree [explicit ITree(size_type _max_depth)] leaves when it returns:
    [reserve] changes the capacity only.  [ITree_ctor] below says when it
    returns. *)
Definition new_tree (_max_depth : Z) : ITree :=
  {| tree := []; max_depth := _max_depth |}.

Definition size_t_wrap (z : Z) : Z := z mod 2 ^ 64.

(** [static_cast<size_type>] of a [std::size_t]. *)
Definition to_size_type (z : Z) : Z :=
  if z <? 2 ^ 63 then z else z - 2 ^ 64.

(** [static_cast<size_type>(this->tree.size() - 1)] *)
Definition root_id (nodes : list INode) : Z :=
  to_size_type (size_t_wrap (Z.of_nat (length nodes) - 1)).

(** [path_length].  [ndebug] tells whether NDEBUG is defined, that is
    whether the [assert] is compiled out.  The recursion of the source is on
    the node index; [fuel] bounds the number of nested calls. *)
Fixpoint path_length (ndebug : bool) (fuel : nat) (nodes : list INode)
    (value : T) (node_index node_depth : Z) : outcome T :=
  match fuel with
  | O => Fault OutOfFuel
  | S fuel' =>
    if negb ndebug && negb (0 <? node_index) then Fault AssertionFailed else
    node ← at_signed nodes node_index;
    if (0 <=? left node) || (0 <=? right node) then
      if fp_lt value (split_value node) && (0 <=? left node) then
        path_length ndebug fuel' nodes value (left node) (node_depth + 1)
      else if 0 <=? right node then
        path_length ndebug fuel' nodes value (right node) (node_depth + 1)
      else Ok (fp_cast (node_depth - 1))
    else Ok (fp_cast (node_depth - 1))
  end.

(** *** Partitioning

    [std::partition] over the iterators of a [std::span] (bidirectional
    iterators), as libstdc++, libc++ and the MSVC library implement it: a
    cursor [first] moves up while the predicate holds, a cursor [last] moves
    down while it does not, the two elements they stop at are swapped, until
    the cursors meet.  The cursors are kept as [first] and the distance
    [n = last - first].

    The predicate of [build_recursively] is
    [[&anchor](const value_type& v) { return v < anchor; }] where [anchor] is
    a reference to [data[anchor_index]], an element of the range being
    permuted: each call reads the element that is at [anchor_index] at that
    moment. *)
Definition less_than_anchor (data : list T) (anchor_index i : nat) : outcome bool :=
  v ← at_index data i;
  anchor ← at_index data anchor_index;
  Ok (fp_lt v anchor).

(** The first inner loop: [first] moves up while it differs from [last]
    and the predicate holds of the element it points to. *)
Fixpoint scan_up (data : list T) (anchor_index first n : nat) : outcome (nat * nat) :=
  match n with
  | O => Ok (first, O)
  | S n' =>
    b ← less_than_anchor data anchor_index first;
    if b : bool then scan_up data anchor_index (S first) n' else Ok (first, n)
  end.

(** The second inner loop: [last] moves down while it differs from [first]
    and the predicate fails on the element it points to.  The result is the
    new distance, [0] when the cursors met. *)
Fixpoint scan_down (data : list T) (anchor_index first n : nat) : outcome nat :=
  match n with
  | O => Ok O
  | S n' =>
    b ← less_than_anchor data anchor_index (first + n)%nat;
    if b : bool then Ok n else scan_down data anchor_index first n'
  end.

Fixpoint partition_loop (fuel : nat) (data : list T) (anchor_index first n : nat)
    : outcome (list T * nat) :=
  match fuel with
  | O => Fault OutOfFuel
  | S fuel' =>
    '(first1, n1) ← scan_up data anchor_index first n;
    match n1 with
    | O => Ok (data, first1)
    | S n2 =>                                     (* --last *)
      n3 ← scan_down data anchor_index first1 n2;
      match n3 with
      | O => Ok (data, first1)
      | S n4 =>
        data' ← iter_swap data first1 (first1 + n3)%nat;
        partition_loop fuel' data' anchor_index (S first1) n4   (* ++first *)
      end
    end
  end.

(** [std::partition(data.begin() + first, data.begin() + last, pred)]
    together with [std::distance(data.begin(), result)]. *)
Definition std_partition (data : list T) (anchor_index : nat) (first last : Z)
    : outcome (list T * Z) :=
  if (first <? 0) || (last <? first) then Fault UndefinedBehaviour else
  let n := Z.to_nat (last - first) in
  '(data', mid) ← partition_loop (S n) data anchor_index (Z.to_nat first) n;
  Ok (data', Z.of_nat mid).

(** *** Building *)

Variable rand : nat -> Z.          (* the k-th value returned by rand() *)

Record build_state : Type := mkBuild {
  nodes : list INode;              (* this->tree *)
  data : list T;                   (* the buffer the span views *)
  calls : nat                      (* calls of rand() so far *)
}.

Definition push_back (s : build_state) (node : INode) : build_state :=
  {| nodes := nodes s ++ [node]; data := data s; calls := calls s |}.

(** [build_recursively].  [rand() % (right - left)] truncates like [Z.rem].
    The initialisers of the node are evaluated in the order they are
    written: the split value is read through the reference [anchor] after
    the partition and before the two recursive calls.  A call recurses only
    while [depth < max_depth]; [fuel] bounds the nesting and
    [max_depth - depth] is enough. *)
Fixpoint build_recursively (fuel : nat) (max_depth : Z) (s : build_state)
    (left right depth : Z) : outcome (Z * build_state) :=
  if (right <=? left) || (max_depth <=? depth) || (right =? 0) then
    let s' := push_back s default_node in
    Ok (root_id (nodes s'), s')
  else
    match fuel with
    | O => Fault OutOfFuel
    | S fuel' =>
      let anchor_index := left + Z.rem (rand (calls s)) (right - left) in
      if anchor_index <? 0 then Fault UndefinedBehaviour else
      let a := Z.to_nat anchor_index in
      _ ← at_index (data s) a;                     (* anchor binds data[anchor_index] *)
      '(data1, mid) ← std_partition (data s) a left right;
      anchor ← at_index data1 a;                   (* .split_value = anchor *)
      let s1 := {| nodes := nodes s; data := data1; calls := S (calls s) |} in
      '(left_id, s2) ← build_recursively fuel' max_depth s1 left mid (depth + 1);
      '(right_id, s3) ← build_recursively fuel' max_depth s2 mid right (depth + 1);
      let s4 := push_back s3 {| split_value := anchor; left := left_id; right := right_id |} in
      Ok (root_id (nodes s4), s4)
    end.

(** The store of vectors and the state of the random source. *)
Record world : Type := mkWorld {
  heap : list (list T);
  rand_calls : nat
}.

(** [ITree::build(first, last)] where the iterators span the whole buffer
    [src] of the store.  The local vector [data] is a new buffer holding a
    copy of the range; the span given to [build_recursively] views it; it is
    released on return. *)
Definition ITree_build (t : ITree) (src : nat) (w : world) : outcome (ITree * world) :=
  range ← at_index (heap w) src;
  let local := length (heap w) in
  let h1 := heap w ++ [range] in
  buffer ← at_index h1 local;
  '(_, s) ← build_recursively (Z.to_nat (max_depth t)) (max_depth t)
              {| nodes := tree t; data := buffer; calls := rand_calls w |}
              0 (Z.of_nat (length range)) 0;
  let h2 := <[local := data s]> h1 in
  Ok ({| tree := nodes s; max_depth := max_depth t |},
      {| heap := take local h2; rand_calls := calls s |}).

End Tree.

Arguments INode T : clear implicits.
Arguments ITree T : clear implicits.
Arguments build_state T : clear implicits.
Arguments world T : clear implicits.

(** *** Construction

    [explicit ITree(size_type _max_depth)]: the member initialiser and the
    call of [reserve] on the empty vector.  [max_size] is
    [std::vector<node_type>::max_size()], and [grants n] tells whether the
    allocator grants storage for [n] nodes. *)
Section Constructor.
Context {T : Type} `{FloatingPoint T}.
Variable max_size : Z.
Variable grants : Z -> bool.

(** The argument of [reserve]: a product of two [size_type] values, which
    must not overflow, converted to [std::size_t]. *)
Definition reserve_argument (_max_depth : Z) : outcome Z :=
  let n := if 100 <? _max_depth then _max_depth * (_max_depth / 100) else _max_depth in
  if 2 ^ 63 <=? n then Fault UndefinedBehaviour else Ok (size_t_wrap n).

Definition ITree_ctor (_max_depth : Z) : outcome (ITree T) :=
  n ← reserve_argument _max_depth;
  if max_size <? n then Fault LengthError
  else if (0 <? n) && negb (grants n) then Fault BadAlloc
  else Ok (new_tree _max_depth).

End Constructor.

(** ** Forests *)

Section Forest.
Context {T : Type} `{FloatingPoint T}.
Variable rand : nat -> Z.

Record IForest : Type := mkForest {
  trees : list (ITree T)
}.

(** [IForest(num_trees, max_depth)]: [num_trees] copies of one empty tree. *)
Definition new_forest (num_trees : nat) (max_depth : Z) : IForest :=
  {| trees := replicate num_trees (new_tree max_depth) |}.

(** The loop of [shuffle]: [i] is a [std::size_t], so are [i + 1] and the
    cast of [rand()]. *)
Fixpoint shuffle_loop (fuel : nat) (vec : list T) (i : Z) (calls : nat)
    : outcome (list T * nat) :=
  if 0 <? i then
    match fuel with
    | O => Fault OutOfFuel
    | S fuel' =>
      let divisor := size_t_wrap (i + 1) in
      if divisor =? 0 then Fault UndefinedBehaviour else
      let j := size_t_wrap (rand calls) mod divisor in
      vec' ← iter_swap vec (Z.to_nat i) (Z.to_nat j);
      shuffle_loop fuel' vec' (size_t_wrap (i - 1)) (S calls)
    end
  else Ok (vec, calls).

(** [shuffle(vec)]; the loop starts at [vec.size() - 1], computed in
    [std::size_t]. *)
Definition shuffle (vec : list T) (calls : nat) : outcome (list T * nat) :=
  shuffle_loop (S (length vec)) vec (size_t_wrap (Z.of_nat (length vec) - 1)) calls.

(** The loop of [IForest::build] over [this->trees]; [local] is the buffer
    of the local vector [data]. *)
Fixpoint build_trees (ts : list (ITree T)) (local : nat) (w : world T)
    : outcome (list (ITree T) * world T) :=
  match ts with
  | [] => Ok ([], w)
  | t :: ts' =>
    vec ← at_index (heap w) local;
    '(vec', c) ← shuffle vec (rand_calls w);
    let w1 := {| heap := <[local := vec']> (heap w); rand_calls := c |} in
    '(t', w2) ← ITree_build rand t local w1;     (* data.begin(), data.end() *)
    '(ts'', w3) ← build_trees ts' local w2;
    Ok (t' :: ts'', w3)
  end.

(** [IForest::build(first, last)] where the iterators span the whole buffer
    [src]. *)
Definition IForest_build (f : IForest) (src : nat) (w : world T)
    : outcome (IForest * world T) :=
  range ← at_index (heap w) src;
  let local := length (heap w) in
  '(ts, w1) ← build_trees (trees f) local
                {| heap := heap w ++ [range]; rand_calls := rand_calls w |};
  Ok ({| trees := ts |},
      {| heap := take local (heap w1); rand_calls := rand_calls w1 |}).

Context `{CMath T}.

(** [calc_depth] *)
Definition calc_depth (size : Z) : T :=
  if size <=? 1 then fp_zero
  else fp_sub (fp_mul fp_two (fp_add (cm_log (fp_cast (size - 1))) fp_euler))
              (fp_div (fp_mul fp_two (fp_cast (size - 1))) (fp_cast size)).

(** The loop of [score]: [avg_path_len += tree.path_length(value,
    tree.root_id(), 0)].  A descent through a vector of [n] nodes that never
    visits a node twice makes at most [n] calls. *)
Fixpoint sum_path_lengths (ndebug : bool) (ts : list (ITree T)) (value : T) (avg_path_len : T)
    : outcome T :=
  match ts with
  | [] => Ok avg_path_len
  | t :: ts' =>
    p ← path_length ndebug (S (length (tree t))) (tree t) value (root_id (tree t)) 0;
    sum_path_lengths ndebug ts' value (fp_add avg_path_len p)
  end.

(** [score] is a non-const member function: it receives the forest and the
    world and hands them back. *)
Definition score (ndebug : bool) (value : T) (size : Z) (st : IForest * world T)
    : outcome (T * (IForest * world T)) :=
  let '(f, w) := st in
  total ← sum_path_lengths ndebug (trees f) value fp_zero;
  let avg_path_len := fp_div total (fp_cast (Z.of_nat (length (trees f)))) in
  Ok (cm_pow fp_two (fp_div avg_path_len (calc_depth size)), (f, w)).

End Forest.

Arguments IForest T : clear implicits.

(** * Definitions for the statements

    ** The shape of a built tree

    [build_recursively] appends the nodes of a binary tree in post-order.
    [shape] is that tree, [flatten] its layout in the vector from position
    [off] on. *)

Section Shape.
Context {T : Type} `{FloatingPoint T}.

Inductive shape : Type :=
| Leaf
| Split (v : T) (l r : shape).

Fixpoint size (s : shape) : nat :=
  match s with
  | Leaf => 1
  | Split _ l r => size l + size r + 1
  end.

Fixpoint height (s : shape) : nat :=
  match s with
  | Leaf => 0
  | Split _ l r => S (Nat.max (height l) (height r))
  end.

Fixpoint flatten (off : nat) (s : shape) : list (INode T) :=
  match s with
  | Leaf => [default_node]
  | Split v l r =>
    flatten off l ++ flatten (off + size l) r ++
    [{| split_value := v;
        left := Z.of_nat (off + size l) - 1;
        right := Z.of_nat (off + size l + size r) - 1 |}]
  end.

(** The number of edges a query follows in a shape: both children of a
    split exist, so the comparison alone decides. *)
Fixpoint descend (s : shape) (value : T) : nat :=
  match s with
  | Leaf => 0
  | Split v l r => S (descend (if fp_lt value v then l else r) value)
  end.

(** A node at position [i] is well formed when it is the leaf sentinel or
    both children are earlier positions. *)
Definition node_ok (i : Z) (n : INode T) : bool :=
  ((left n =? -1) && (right n =? -1))
  || ((0 <=? left n) && (left n <? i) && (0 <=? right n) && (right n <? i)).

Fixpoint nodes_ok_from (i : Z) (l : list (INode T)) : bool :=
  match l with
  | [] => true
  | n :: l' => node_ok i n && nodes_ok_from (i + 1) l'
  end.

(** The vector still fits the index type: [size()] casts to [size_type]
    without wrapping. *)
Definition fits (l : list (INode T)) : Prop := Z.of_nat (length l) <= 2 ^ 63.

(** [nodes] holds the layout of [s] from position [off] on. *)
Definition segment (nodes : list (INode T)) (off : nat) (s : shape) : Prop :=
  forall k n, flatten off s !! k = Some n -> nodes !! (off + k)%nat = Some n.

(** The query value is below every split value on the left spine. *)
Fixpoint below_left_spine (s : shape) (value : T) : bool :=
  match s with
  | Leaf => true
  | Split v l _ => fp_lt value v && below_left_spine l value
  end.

(** Every node is the leaf sentinel or has both children at earlier
    positions. *)
Definition well_formed (nodes : list (INode T)) : Prop :=
  forall i n, nodes !! i = Some n ->
    (left n = -1 /\ right n = -1)
    \/ (0 <= left n < Z.of_nat i /\ 0 <= right n < Z.of_nat i).


(** A call returned the cast of an integer between [0] and [md]. *)
Definition path_in_bounds (md : Z) (o : outcome T) : Prop :=
  exists r, 0 <= r <= md /\ o = Ok (fp_cast r).

(** The elements at the positions [l, r) of a buffer. *)
Definition range_of (data : list T) (l r : Z) : list T :=
  take (Z.to_nat (r - l)) (drop (Z.to_nat l) data).

(** The postcondition the specification gives the partition step, for the
    anchor value [anchor]: below [mid] everything is less than it, from
    [mid] on nothing is, and [mid - l] counts the elements of the range that
    were less than it. *)
Definition partitioned (anchor : T) (before after : list T) (l mid r : Z) : bool :=
  forallb (fun v => fp_lt v anchor) (range_of after l mid)
  && forallb (fun v => negb (fp_lt v anchor)) (range_of after mid r)
  && (mid =? l + Z.of_nat (length (List.filter (fun v => fp_lt v anchor) (range_of before l r)))).

(** What the partition step does establish over the range [l, r) when the
    anchor value was [v0] at the start: the element that ends at the anchor's
    position is [v0] or something less than [v0]; everything before [mid] is
    less than [v0]; nothing from [mid] on is less than the element now at
    the anchor's position. *)
Definition weakly_partitioned (v0 : T) (anchor_index : nat) (after : list T)
    (l mid r : nat) : Prop :=
  exists v1,
    after !! anchor_index = Some v1
    /\ (v1 = v0 \/ fp_lt v1 v0 = true)
    /\ (forall i x, (l <= i < mid)%nat -> after !! i = Some x -> fp_lt x v0 = true)
    /\ (forall i x, (mid <= i < r)%nat -> after !! i = Some x -> fp_lt x v1 = false).

(** The same while the cursors are at [first] and [last]; an anchor that
    has changed lies before [first] and is not touched again. *)
Definition partition_inv (v0 : T) (anchor_index : nat) (data : list T)
    (l first last r : nat) : Prop :=
  exists c,
    data !! anchor_index = Some c
    /\ (c = v0 \/ (fp_lt c v0 = true /\ (anchor_index < first)%nat))
    /\ (forall i x, (l <= i < first)%nat -> data !! i = Some x -> fp_lt x v0 = true)
    /\ (forall i x, (last <= i < r)%nat -> data !! i = Some x -> fp_lt x c = false).

(** [t'] is what [build_recursively] makes of [t] on a buffer that is some
    permutation of [range], from some state of the random source. *)
Definition grown_from (rand : nat -> Z) (range : list T) (t t' : ITree T) : Prop :=
  exists vec c i s,
    vec ≡ₚ range
    /\ build_recursively rand (Z.to_nat (max_depth t)) (max_depth t)
         {| nodes := tree t; data := vec; calls := c |}
         0 (Z.of_nat (length vec)) 0 = Ok (i, s)
    /\ t' = {| tree := nodes s; max_depth := max_depth t |}.

(** [t'] is what a call of [build] makes of [t]. *)
Definition built_from (rand : nat -> Z) (t t' : ITree T) : Prop :=
  exists src w w', ITree_build rand t src w = Ok (t', w').

End Shape.

Arguments shape T : clear implicits.

Section ScoreSpec.
Context {T : Type} `{FloatingPoint T} `{CMath T}.

(** The score in the words of the specification: two to the power
    [h / c], not negated, where [h] is the sum of the trees' path lengths
    (accumulated from zero in the order of the trees) divided by their
    number. *)
Definition score_spec (path_lengths : list T) (c : T) : T :=
  let h := fp_div (fold_left fp_add path_lengths fp_zero)
                  (fp_cast (Z.of_nat (length path_lengths))) in
  cm_pow fp_two (fp_div h c).

(** [2*(ln(n-1) + 0.5772156649) - 2*(n-1)/n] *)
Definition expected_path_length (n : Z) : T :=
  fp_sub (fp_mul fp_two (fp_add (cm_log (fp_cast (n - 1))) fp_euler))
         (fp_div (fp_mul fp_two (fp_cast (n - 1))) (fp_cast n)).

End ScoreSpec.

(** The value a stateful call returned, without the state. *)
Definition value_of {A S : Type} (o : outcome (A * S)) : outcome A :=
  '(x, _) ← o; Ok x.

(** ** Sample inputs *)

Definition rand_zero (k : nat) : Z := 0.
Definition rand_odd (k : nat) : Z := Z.of_nat k * 7 + 3.

Definition sample_world : world float :=
  {| heap := [[5; 4; 7; 3; 1]%float]; rand_calls := 0 |}.

Definition empty_world : world float :=
  {| heap := [[]]; rand_calls := 0 |}.

Definition single_world : world float :=
  {| heap := [[5]%float]; rand_calls := 0 |}.

Definition moved_anchor_world : world float :=
  {| heap := [[5; 4; 7; 3]%float]; rand_calls := 0 |}.

Definition real_world : world R :=
  {| heap := [[1%R]]; rand_calls := 0 |}.

(** A forest of one tree that is a single leaf, over the reals. *)
Definition real_forest : IForest R :=
  {| trees := [{| tree := [default_node]; max_depth := 0 |}] |}.

(** What [build] makes of the sequence [5] with [max_depth = 1]. *)
Definition single_tree : ITree float :=
  {| tree := [default_node; default_node;
              {| split_value := 5%float; left := 0; right := 1 |}];
     max_depth := 1 |}.

(** A tree that is a single leaf. *)
Definition leaf_tree {T : Type} `{FloatingPoint T} (md : Z) : ITree T :=
  {| tree := [default_node]; max_depth := md |}.

(** What [IForest::build] makes of the sequence [5] with one tree, for
    [max_depth = 1] and for [max_depth = 0]. *)
Definition single_forest : IForest float := {| trees := [single_tree] |}.

(** [max_size()] of a vector of 24-byte nodes where it is [PTRDIFF_MAX]
    over the size of an element. *)
Definition sample_max_size : Z := (2 ^ 63 - 1) / 24.

(** * Lemmas *)

Lemma bind_Ok {A B : Type} (m : outcome A) (k : A -> outcome B) (b : B) :
  m ≫= k = Ok b -> exists a, m = Ok a /\ k a = Ok b.
Proof. destruct m as [a|f]; [eauto|discriminate]. Qed.

(** Splits a hypothesis [x ← m; k x = Ok b] into the two steps. *)
Ltac inv_bind H :=
  let a := fresh "a" in
  let Ha := fresh "Hstep" in
  apply bind_Ok in H; destruct H as (a & Ha & H).

(** ** Facts about shapes and their layout *)

Section ShapeFacts.
Context {T : Type} `{FloatingPoint T}.

Lemma size_pos (s : shape T) : (0 < size s)%nat.
Proof. destruct s; simpl; lia. Qed.

Lemma height_lt_size (s : shape T) : (height s < size s)%nat.
Proof. induction s; simpl; lia. Qed.

Lemma length_flatten (s : shape T) (off : nat) : length (flatten off s) = size s.
Proof.
  revert off; induction s as [|v l IHl r IHr]; intros off; simpl; [reflexivity|].
  rewrite !length_app, IHl, IHr. simpl. lia.
Qed.

Lemma root_id_eq (l : list (INode T)) :
  fits l -> root_id l = Z.of_nat (length l) - 1.
Proof.
  unfold fits, root_id, size_t_wrap, to_size_type. intros Hfit.
  destruct l as [|n l]; [reflexivity|].
  rewrite Z.mod_small by (simpl length in *; lia).
  destruct (Z.ltb_spec (Z.of_nat (length (n :: l)) - 1) (2 ^ 63)); [reflexivity|lia].
Qed.

Lemma nodes_ok_from_app (i : Z) (l1 l2 : list (INode T)) :
  nodes_ok_from i (l1 ++ l2)
  = nodes_ok_from i l1 && nodes_ok_from (i + Z.of_nat (length l1)) l2.
Proof.
  revert i; induction l1 as [|n l1 IH]; intros i; simpl.
  - f_equal; lia.
  - rewrite IH, andb_assoc. do 2 f_equal. lia.
Qed.

Lemma flatten_ok (s : shape T) (off : nat) :
  nodes_ok_from (Z.of_nat off) (flatten off s) = true.
Proof.
  revert off; induction s as [|v l IHl r IHr]; intros off; simpl.
  - reflexivity.
  - rewrite !nodes_ok_from_app, !length_flatten. simpl.
    rewrite IHl. replace (Z.of_nat off + Z.of_nat (size l)) with (Z.of_nat (off + size l)) by lia.
    rewrite IHr. simpl. rewrite andb_true_r.
    unfold node_ok; simpl. apply orb_true_iff; right.
    pose proof (size_pos l). pose proof (size_pos r).
    rewrite !andb_true_iff, !Z.leb_le, !Z.ltb_lt. lia.
Qed.

Lemma segment_left nodes off v l r :
  segment nodes off (Split v l r) -> segment nodes off l.
Proof.
  intros Hseg k n Hk. apply Hseg. simpl. by apply lookup_app_l_Some.
Qed.

Lemma segment_right nodes off v l r :
  segment nodes off (Split v l r) -> segment nodes (off + size l) r.
Proof.
  intros Hseg k n Hk. replace (off + size l + k)%nat with (off + (size l + k))%nat by lia.
  apply Hseg. simpl. rewrite lookup_app_r; rewrite length_flatten; [|lia].
  replace (size l + k - size l)%nat with k by lia. by apply lookup_app_l_Some.
Qed.

Lemma segment_root nodes off v l r :
  segment nodes off (Split v l r) ->
  nodes !! (off + size l + size r)%nat
  = Some {| split_value := v;
            left := Z.of_nat (off + size l) - 1;
            right := Z.of_nat (off + size l + size r) - 1 |}.
Proof.
  intros Hseg.
  pose proof (Hseg (size l + size r)%nat) as Hk. rewrite Nat.add_assoc in Hk.
  apply Hk. simpl.
  rewrite lookup_app_r; rewrite length_flatten; [|lia].
  rewrite lookup_app_r; rewrite length_flatten; [|lia].
  replace (size l + size r - size l - size r)%nat with 0%nat by lia. reflexivity.
Qed.

Lemma segment_app pre s : segment (pre ++ flatten (length pre) s) (length pre) s.
Proof. intros k n Hk. by rewrite lookup_app_r, Nat.add_comm, Nat.add_sub by lia. Qed.

Lemma at_signed_nat {A : Type} (v : list A) (k : nat) :
  at_signed v (Z.of_nat k) = at_index v k.
Proof.
  unfold at_signed. destruct (Z.ltb_spec (Z.of_nat k) 0); [lia|]. by rewrite Nat2Z.id.
Qed.

Lemma node_ok_spec (i : nat) (n : INode T) :
  node_ok (Z.of_nat i) n = true ->
  (left n = -1 /\ right n = -1)
  \/ (0 <= left n < Z.of_nat i /\ 0 <= right n < Z.of_nat i).
Proof.
  unfold node_ok. rewrite orb_true_iff, !andb_true_iff, !Z.eqb_eq, !Z.leb_le, !Z.ltb_lt.
  intuition lia.
Qed.

Lemma nodes_ok_from_lookup (l : list (INode T)) :
  forall (i k : nat) n,
    nodes_ok_from (Z.of_nat i) l = true -> l !! k = Some n ->
    node_ok (Z.of_nat (i + k)) n = true.
Proof.
  induction l as [|m l IH]; intros i k n Hok Hk; [discriminate|].
  simpl in Hok. apply andb_true_iff in Hok as [Hm Hl].
  destruct k as [|k]; simpl in Hk.
  - injection Hk as <-. by rewrite Nat.add_0_r.
  - replace (i + S k)%nat with (S i + k)%nat by lia. apply IH; [|exact Hk].
    by replace (Z.of_nat (S i)) with (Z.of_nat i + 1) by lia.
Qed.

(** Appending the layout of a shape keeps a vector well formed. *)
Lemma well_formed_app_flatten (pre : list (INode T)) (s : shape T) :
  well_formed pre -> well_formed (pre ++ flatten (length pre) s).
Proof.
  intros Hpre i n Hi. destruct (decide (i < length pre)%nat) as [Hlt|Hge].
  - rewrite lookup_app_l in Hi by exact Hlt. by apply Hpre.
  - rewrite lookup_app_r in Hi by lia. apply node_ok_spec.
    replace i with (length pre + (i - length pre))%nat at 1 by lia.
    eapply nodes_ok_from_lookup; [apply flatten_ok|exact Hi].
Qed.

(** A query that starts at the root of a laid-out shape follows [descend];
    no assertion fires when the layout starts after position [0]. *)
Lemma path_length_flatten (value : T) (s : shape T) :
  forall (ndebug : bool) (nodes : list (INode T)) (off fuel : nat) (d : Z),
    segment nodes off s -> (height s < fuel)%nat ->
    ndebug = true \/ (0 < off)%nat ->
    path_length ndebug fuel nodes value (Z.of_nat (off + size s) - 1) d
    = Ok (fp_cast (d + Z.of_nat (descend s value) - 1)).
Proof.
  induction s as [|v l IHl r IHr]; intros ndebug nodes off fuel d Hseg Hfuel Hassert;
    (destruct fuel as [|fuel]; [simpl in Hfuel; lia|]).
  - simpl. replace (Z.of_nat (off + 1) - 1) with (Z.of_nat off) by lia.
    assert (negb ndebug && negb (0 <? Z.of_nat off) = false) as ->.
    { destruct Hassert as [->|Hoff]; [reflexivity|].
      destruct (Z.ltb_spec 0 (Z.of_nat off)); [apply andb_false_r|lia]. }
    rewrite at_signed_nat. unfold at_index.
    specialize (Hseg 0%nat default_node eq_refl). rewrite Nat.add_0_r in Hseg.
    rewrite Hseg. simpl. do 2 f_equal. lia.
  - pose proof (size_pos l) as Hl. pose proof (size_pos r) as Hr.
    cbn [path_length size descend].
    replace (Z.of_nat (off + (size l + size r + 1)) - 1)
      with (Z.of_nat (off + size l + size r)) by lia.
    assert (negb ndebug && negb (0 <? Z.of_nat (off + size l + size r)) = false) as ->.
    { destruct (Z.ltb_spec 0 (Z.of_nat (off + size l + size r))); [apply andb_false_r|lia]. }
    rewrite at_signed_nat. unfold at_index.
    rewrite (segment_root _ _ _ _ _ Hseg). cbn [mbind outcome_bind left right split_value].
    assert ((0 <=? Z.of_nat (off + size l) - 1) = true) as -> by (apply Z.leb_le; lia).
    assert ((0 <=? Z.of_nat (off + size l + size r) - 1) = true) as -> by (apply Z.leb_le; lia).
    cbn [orb]. rewrite andb_true_r. simpl in Hfuel.
    destruct (fp_lt value v).
    + rewrite (IHl ndebug nodes off fuel (d + 1)); [do 2 f_equal; lia| |lia|exact Hassert].
      eapply segment_left; eauto.
    + rewrite (IHr ndebug nodes (off + size l)%nat fuel (d + 1));
        [do 2 f_equal; lia| |lia|destruct Hassert; [by left|right; lia]].
      eapply segment_right; eauto.
Qed.

Lemma descend_le_height (s : shape T) (value : T) : (descend s value <= height s)%nat.
Proof.
  induction s as [|v l IHl r IHr]; simpl; [lia|]. destruct (fp_lt value v); lia.
Qed.

Lemma descend_pos (s : shape T) (value : T) : s <> Leaf -> (1 <= descend s value)%nat.
Proof. destruct s; [congruence|simpl; lia]. Qed.

(** In a vector that holds nothing but the layout of one shape, the first
    node is the leftmost leaf: a query below the splits of the left spine
    reaches position [0] and fails the assertion. *)
Lemma path_length_left_spine (value : T) (s : shape T) :
  forall (nodes : list (INode T)) (fuel : nat) (d : Z),
    segment nodes 0 s -> (height s < fuel)%nat ->
    below_left_spine s value = true ->
    path_length false fuel nodes value (Z.of_nat (size s) - 1) d = Fault AssertionFailed.
Proof.
  induction s as [|v l IHl r IHr]; intros nodes fuel d Hseg Hfuel Hlow;
    (destruct fuel as [|fuel]; [simpl in Hfuel; lia|]).
  - reflexivity.
  - pose proof (size_pos l) as Hl. pose proof (size_pos r) as Hr.
    simpl in Hlow. apply andb_true_iff in Hlow as [Hlt Hlow].
    cbn [path_length size negb andb].
    destruct (Z.ltb_spec 0 (Z.of_nat (size l + size r + 1) - 1)); [|lia]. cbn [negb].
    replace (Z.of_nat (size l + size r + 1) - 1) with (Z.of_nat (size l + size r)) by lia.
    rewrite at_signed_nat. unfold at_index.
    rewrite (segment_root _ _ _ _ _ Hseg : nodes !! (size l + size r)%nat = _).
    cbn [mbind outcome_bind left right split_value]. rewrite Hlt.
    assert ((0 <=? Z.of_nat (0 + size l) - 1) = true) as -> by (apply Z.leb_le; lia).
    cbn [orb andb]. simpl in Hfuel.
    apply IHl; [eapply segment_left; eauto | lia | exact Hlow].
Qed.

(** With the assertion compiled in, a call either fails it or returns what
    the call without it returns. *)
Lemma path_length_debug (fuel : nat) (nodes : list (INode T)) (value : T) :
  forall i d,
    path_length false fuel nodes value i d = path_length true fuel nodes value i d
    \/ path_length false fuel nodes value i d = Fault AssertionFailed.
Proof.
  induction fuel as [|fuel IH]; intros i d; [by left|].
  cbn [path_length andb negb].
  destruct (negb (0 <? i)); [by right|].
  destruct (at_signed nodes i) as [node|f]; [|by left]. cbn [mbind outcome_bind].
  destruct (_ || _); [|by left].
  destruct (_ && _); [apply IH|].
  destruct (0 <=? right node); [apply IH|by left].
Qed.

(** When every split value of a layout comes from [range], a query below
    everything in [range] is below the left spine. *)
Lemma flatten_below_spine (range : list T) (value : T) (s : shape T) :
  (forall x, x ∈ range -> fp_lt value x = true) ->
  forall off,
    Forall (fun n => n = default_node \/ split_value n ∈ range) (flatten off s) ->
    below_left_spine s value = true.
Proof.
  intros Hlow. induction s as [|v l IHl r IHr]; intros off Hall; [reflexivity|].
  simpl in Hall. rewrite !Forall_app in Hall. destruct Hall as (Hl & _ & Hroot).
  inversion Hroot as [|? ? [Hdef|Hin] _]; subst.
  - apply (f_equal left) in Hdef. simpl in Hdef. pose proof (size_pos l). lia.
  - simpl. rewrite (Hlow v Hin). by apply (IHl off).
Qed.

(** On a well-formed vector a query from any node stays inside the vector
    and follows at most as many edges as the node's position. *)
Lemma path_length_well_formed (nodes : list (INode T)) (value : T) (fuel : nat) :
  well_formed nodes ->
  forall (i : nat) (d : Z),
    (i < length nodes)%nat -> (i < fuel)%nat ->
    exists r,
      path_length true fuel nodes value (Z.of_nat i) d = Ok (fp_cast r)
      /\ d - 1 <= r <= d - 1 + Z.of_nat i.
Proof.
  intros Hwf. induction fuel as [|fuel IH]; intros i d Hi Hfuel; [lia|].
  cbn [path_length negb andb]. rewrite at_signed_nat. unfold at_index.
  destruct (lookup_lt_is_Some_2 nodes i Hi) as [n Hn]. rewrite Hn.
  cbn [mbind outcome_bind].
  destruct (Hwf i n Hn) as [[Hl Hr]|[Hl Hr]].
  - rewrite Hl, Hr. cbn. exists (d - 1). split; [reflexivity|lia].
  - destruct (Z.leb_spec 0 (left n)); [|lia]. destruct (Z.leb_spec 0 (right n)); [|lia].
    cbn [orb]. rewrite andb_true_r.
    destruct (fp_lt value (split_value n)).
    + destruct (IH (Z.to_nat (left n)) (d + 1)) as (r & Hp & Hb); [lia..|].
      rewrite Z2Nat.id in Hp by lia. exists r. split; [exact Hp|lia].
    + destruct (IH (Z.to_nat (right n)) (d + 1)) as (r & Hp & Hb); [lia..|].
      rewrite Z2Nat.id in Hp by lia. exists r. split; [exact Hp|lia].
Qed.

End ShapeFacts.

(** ** Facts about partitioning and building *)

Section BuildFacts.
Context {T : Type} `{FloatingPoint T}.

Lemma at_index_Ok {A : Type} (v : list A) (i : nat) :
  (i < length v)%nat -> exists x, at_index v i = Ok x /\ v !! i = Some x.
Proof.
  intros Hi. unfold at_index. destruct (lookup_lt_is_Some_2 v i Hi) as [x Hx].
  rewrite Hx. eauto.
Qed.

Lemma at_index_inv {A : Type} (v : list A) (i : nat) (x : A) :
  at_index v i = Ok x -> v !! i = Some x.
Proof. unfold at_index. destruct (v !! i); congruence. Qed.

Lemma iter_swap_Ok {A : Type} (v : list A) (i j : nat) :
  (i < length v)%nat -> (j < length v)%nat ->
  exists v', iter_swap v i j = Ok v' /\ length v' = length v.
Proof.
  intros Hi Hj. unfold iter_swap.
  destruct (at_index_Ok v i Hi) as (x & -> & _).
  destruct (at_index_Ok v j Hj) as (y & -> & _).
  eexists; split; [reflexivity|]. by rewrite !length_insert.
Qed.

Lemma iter_swap_perm {A : Type} (v v' : list A) (i j : nat) :
  iter_swap v i j = Ok v' -> v' ≡ₚ v.
Proof.
  unfold iter_swap. intros Hs. inv_bind Hs. inv_bind Hs. injection Hs as <-.
  apply at_index_inv in Hstep, Hstep0. by apply Permutation_insert_swap.
Qed.

Lemma less_than_anchor_Ok (data : list T) (a i : nat) :
  (a < length data)%nat -> (i < length data)%nat ->
  exists b, less_than_anchor data a i = Ok b.
Proof.
  intros Ha Hi. unfold less_than_anchor.
  destruct (at_index_Ok data i Hi) as (x & -> & _).
  destruct (at_index_Ok data a Ha) as (y & -> & _). eauto.
Qed.

Lemma scan_up_Ok (data : list T) (a : nat) (n : nat) :
  forall first, (a < length data)%nat -> (first + n <= length data)%nat ->
  exists first1 n1, scan_up data a first n = Ok (first1, n1)
    /\ (first1 + n1 = first + n)%nat /\ (first <= first1)%nat.
Proof.
  induction n as [|n IH]; intros first Ha Hn; simpl.
  - exists first, 0%nat. auto.
  - destruct (less_than_anchor_Ok data a first Ha) as [b ->]; [lia|].
    cbn [mbind outcome_bind]. destruct b.
    + destruct (IH (S first) Ha) as (f1 & n1 & -> & ? & ?); [lia|].
      exists f1, n1. repeat split; lia.
    + exists first, (S n). auto.
Qed.

Lemma scan_down_Ok (data : list T) (a first : nat) (n : nat) :
  (a < length data)%nat -> (first + n < length data)%nat ->
  exists n3, scan_down data a first n = Ok n3 /\ (n3 <= n)%nat.
Proof.
  induction n as [|n IH]; intros Ha Hn; simpl.
  - exists 0%nat. auto.
  - destruct (less_than_anchor_Ok data a (first + S n) Ha) as [b ->]; [lia|].
    cbn [mbind outcome_bind]. destruct b.
    + exists (S n). auto.
    + destruct IH as (n3 & -> & ?); [lia..|]. exists n3. auto.
Qed.

Lemma partition_loop_Ok (a : nat) (fuel : nat) :
  forall (data : list T) (first n : nat),
    (n < fuel)%nat -> (a < length data)%nat -> (first + n <= length data)%nat ->
    exists data' mid, partition_loop fuel data a first n = Ok (data', mid)
      /\ length data' = length data /\ (first <= mid <= first + n)%nat.
Proof.
  induction fuel as [|fuel IH]; intros data first n Hfuel Ha Hn; [lia|].
  cbn [partition_loop].
  destruct (scan_up_Ok data a n first Ha Hn) as (f1 & n1 & -> & Hsum & Hle).
  cbn [mbind outcome_bind].
  destruct n1 as [|n2]; [exists data, f1; repeat split; lia|].
  destruct (scan_down_Ok data a f1 n2 Ha) as (n3 & -> & Hn3); [lia|].
  cbn [mbind outcome_bind].
  destruct n3 as [|n4]; [exists data, f1; repeat split; lia|].
  destruct (iter_swap_Ok data f1 (f1 + S n4)) as (data1 & -> & Hlen); [lia..|].
  cbn [mbind outcome_bind].
  destruct (IH data1 (S f1) n4) as (data' & mid & -> & Hlen' & Hmid); [lia..|].
  exists data', mid. repeat split; lia.
Qed.

Lemma partition_loop_perm (a : nat) (fuel : nat) :
  forall (data data' : list T) (first n mid : nat),
    partition_loop fuel data a first n = Ok (data', mid) -> data' ≡ₚ data.
Proof.
  induction fuel as [|fuel IH]; intros data data' first n mid Hp; [discriminate|].
  cbn [partition_loop] in Hp. inv_bind Hp. destruct a0 as [first1 n1].
  destruct n1 as [|n2]; [by injection Hp as <- _|].
  inv_bind Hp. destruct a0 as [|n4]; [by injection Hp as <- _|].
  inv_bind Hp. apply IH in Hp. apply iter_swap_perm in Hstep1. by rewrite Hp.
Qed.

Lemma std_partition_Ok (data : list T) (a : nat) (first last : Z) :
  0 <= first <= last -> last <= Z.of_nat (length data) -> (a < length data)%nat ->
  exists data' mid, std_partition data a first last = Ok (data', mid)
    /\ length data' = length data /\ first <= mid <= last.
Proof.
  intros Hfl Hlast Ha. unfold std_partition.
  destruct (Z.ltb_spec first 0); [lia|]. destruct (Z.ltb_spec last first); [lia|].
  cbn [orb].
  destruct (partition_loop_Ok a (S (Z.to_nat (last - first))) data
              (Z.to_nat first) (Z.to_nat (last - first)))
    as (data' & mid & -> & Hlen & Hmid); [lia..|].
  cbn [mbind outcome_bind]. exists data', (Z.of_nat mid). repeat split; lia.
Qed.

(** *** What the partition step guarantees

    The comparison is taken to be a strict partial order, as [<] is on
    floating-point numbers. *)

Lemma less_than_anchor_inv (data : list T) (a i : nat) (b : bool) :
  less_than_anchor data a i = Ok b ->
  exists x c, data !! i = Some x /\ data !! a = Some c /\ fp_lt x c = b.
Proof.
  unfold less_than_anchor. intros Hl. inv_bind Hl. inv_bind Hl. injection Hl as <-.
  apply at_index_inv in Hstep, Hstep0. eauto.
Qed.

Lemma scan_up_spec (data : list T) (a : nat) (n : nat) :
  forall first first1 n1,
    scan_up data a first n = Ok (first1, n1) ->
    (first1 + n1 = first + n)%nat /\ (first <= first1)%nat
    /\ (forall i, (first <= i < first1)%nat -> less_than_anchor data a i = Ok true)
    /\ (n1 <> 0%nat -> less_than_anchor data a first1 = Ok false).
Proof.
  induction n as [|n IH]; intros first first1 n1 Hs; simpl in Hs.
  - injection Hs as <- <-. repeat split; first [lia | congruence | intros; lia].
  - inv_bind Hs. destruct a0.
    + apply IH in Hs as (Hsum & Hle & Hup & Hstop).
      repeat split; try lia; [|exact Hstop].
      intros i Hi. destruct (decide (i = first)) as [->|]; [exact Hstep|apply Hup; lia].
    + injection Hs as <- <-. repeat split; first [lia | by intros _ | intros; lia].
Qed.

Lemma scan_down_spec (data : list T) (a first : nat) (n : nat) :
  forall n3,
    scan_down data a first n = Ok n3 ->
    (n3 <= n)%nat
    /\ (forall i, (first + n3 < i <= first + n)%nat -> less_than_anchor data a i = Ok false)
    /\ (n3 <> 0%nat -> less_than_anchor data a (first + n3) = Ok true).
Proof.
  induction n as [|n IH]; intros n3 Hs; simpl in Hs.
  - injection Hs as <-. repeat split; first [lia | congruence | intros; lia].
  - inv_bind Hs. destruct a0.
    + injection Hs as <-. repeat split; first [lia | by intros _ | intros; lia].
    + apply IH in Hs as (Hle & Hdown & Hfound).
      repeat split; try lia; [|exact Hfound].
      intros i Hi. destruct (decide (i = first + S n)%nat) as [->|]; [exact Hstep|apply Hdown; lia].
Qed.

Lemma iter_swap_lookup {A : Type} (v v' : list A) (i j : nat) (x y : A) :
  iter_swap v i j = Ok v' -> i <> j -> v !! i = Some x -> v !! j = Some y ->
  v' !! i = Some y /\ v' !! j = Some x
  /\ forall k, k <> i -> k <> j -> v' !! k = v !! k.
Proof.
  unfold iter_swap. intros Hs Hij Hi Hj. inv_bind Hs. inv_bind Hs. injection Hs as <-.
  apply at_index_inv in Hstep, Hstep0. rewrite Hi in Hstep. rewrite Hj in Hstep0.
  injection Hstep as <-. injection Hstep0 as <-.
  pose proof (lookup_lt_Some _ _ _ Hi). pose proof (lookup_lt_Some _ _ _ Hj).
  repeat split.
  - rewrite list_lookup_insert_ne by congruence. by apply list_lookup_insert_eq.
  - apply list_lookup_insert_eq. by rewrite length_insert.
  - intros k Hki Hkj. by rewrite !list_lookup_insert_ne by congruence.
Qed.

Section PartitionGuarantee.
Hypothesis lt_irrefl : forall x : T, fp_lt x x = false.
Hypothesis lt_trans : forall x y z : T, fp_lt x y = true -> fp_lt y z = true -> fp_lt x z = true.

Lemma lt_asym (x y : T) : fp_lt x y = true -> fp_lt y x = false.
Proof.
  intros Hxy. destruct (fp_lt y x) eqn:Hyx; [|reflexivity].
  by rewrite <- (lt_irrefl x), (lt_trans x y x Hxy Hyx).
Qed.

Lemma not_lt_trans (x y z : T) : fp_lt x z = false -> fp_lt y z = true -> fp_lt x y = false.
Proof.
  intros Hxz Hyz. destruct (fp_lt x y) eqn:Hxy; [|reflexivity].
  by rewrite <- Hxz, (lt_trans x y z Hxy Hyz).
Qed.

Lemma partition_loop_spec (v0 : T) (a l r : nat) (fuel : nat) :
  forall (data data' : list T) (first n mid : nat),
    partition_loop fuel data a first n = Ok (data', mid) ->
    (first + n <= r)%nat ->
    partition_inv v0 a data l first (first + n) r ->
    weakly_partitioned v0 a data' l mid r /\ (first <= mid <= first + n)%nat.
Proof.
  induction fuel as [|fuel IH]; intros data data' first n mid Hp Hr
    (c & Ha & Hc & Hleft & Hright); [discriminate|].
  cbn [partition_loop] in Hp. inv_bind Hp. destruct a0 as [f1 n1].
  apply scan_up_spec in Hstep as (Hsum & Hle & Hup & Hstop).
  assert (fp_lt c v0 = true -> forall x, fp_lt x c = true -> fp_lt x v0 = true) as Hbelow
    by (intros Hcv x Hx; by apply (lt_trans x c v0)).
  assert (forall x, fp_lt x c = true -> fp_lt x v0 = true) as Hlow.
  { intros x Hx. destruct Hc as [->|[Hcv _]]; [exact Hx|by apply Hbelow]. }
  assert (forall i x, (l <= i < f1)%nat -> data !! i = Some x -> fp_lt x v0 = true) as Hleft1.
  { intros i x Hi Hx. destruct (decide (i < first)%nat); [eapply Hleft; eauto; lia|].
    destruct (less_than_anchor_inv _ _ _ _ (Hup i ltac:(lia))) as (x' & c' & Hx' & Hc' & Hlt).
    apply Hlow. congruence. }
  assert (c = v0 \/ fp_lt c v0 = true) as Hc' by (destruct Hc as [->|[? _]]; auto).
  destruct n1 as [|n2].
  { injection Hp as <- <-. split; [|lia]. exists c. repeat split; try assumption.
    intros i x Hi. apply Hright. lia. }
  inv_bind Hp. rename a0 into n3.
  apply scan_down_spec in Hstep as (Hn3 & Hdown & Hfound).
  assert (forall i x, (f1 + n3 < i < r)%nat -> data !! i = Some x -> fp_lt x c = false)
    as Hright1.
  { intros i x Hi Hx. destruct (decide (first + n <= i)%nat); [eapply Hright; eauto; lia|].
    destruct (less_than_anchor_inv _ _ _ _ (Hdown i ltac:(lia))) as (x' & c' & Hx' & Hc'' & Hlt).
    congruence. }
  destruct (less_than_anchor_inv _ _ _ _ (Hstop ltac:(lia))) as (z & cz & Hz & Hcz & Hzc).
  assert (cz = c) as -> by congruence.
  destruct n3 as [|n4].
  { injection Hp as <- <-. split; [|lia]. exists c. repeat split; try assumption.
    intros i x Hi Hx. destruct (decide (i = f1)) as [->|]; [congruence|].
    eapply Hright1; eauto. lia. }
  inv_bind Hp. rename a0 into data1.
  destruct (less_than_anchor_inv _ _ _ _ (Hfound ltac:(lia))) as (y & cy & Hy & Hcy & Hyc).
  assert (cy = c) as -> by congruence.
  assert (a <> f1 + S n4)%nat as Hne.
  { intros ->. assert (y = c) as -> by congruence. by rewrite lt_irrefl in Hyc. }
  destruct (iter_swap_lookup data data1 f1 (f1 + S n4) z y Hstep ltac:(lia) Hz Hy)
    as (Hf1 & Hlast & Hother).
  apply IH in Hp as [Hw Hmid]; [split; [exact Hw|lia] | lia |].
  replace (S f1 + n4)%nat with (f1 + S n4)%nat by lia.
  destruct (decide (a = f1)) as [->|Hnf].
  - assert (z = c) as -> by congruence.
    exists y. repeat split.
    + exact Hf1.
    + right. split; [by apply Hlow|lia].
    + intros i x Hi Hx. destruct (decide (i = f1)) as [->|].
      * assert (x = y) as -> by congruence. by apply Hlow.
      * rewrite Hother in Hx by lia. eapply Hleft1; eauto. lia.
    + intros i x Hi Hx. destruct (decide (i = f1 + S n4)%nat) as [->|].
      * assert (x = c) as -> by congruence. by apply lt_asym.
      * rewrite Hother in Hx by lia. eapply not_lt_trans; [|exact Hyc].
        eapply Hright1; eauto. lia.
  - exists c. repeat split.
    + by rewrite Hother.
    + destruct Hc as [->|[Hcv Hlt]]; [by left|right; split; [exact Hcv|lia]].
    + intros i x Hi Hx. destruct (decide (i = f1)) as [->|].
      * assert (x = y) as -> by congruence. by apply Hlow.
      * rewrite Hother in Hx by lia. eapply Hleft1; eauto. lia.
    + intros i x Hi Hx. destruct (decide (i = f1 + S n4)%nat) as [->|].
      * congruence.
      * rewrite Hother in Hx by lia. eapply Hright1; eauto. lia.
Qed.

End PartitionGuarantee.

Variable rand : nat -> Z.

Lemma build_recursively_eq fuel md (s : build_state T) l r d :
  build_recursively rand fuel md s l r d
  = if (r <=? l) || (md <=? d) || (r =? 0) then
      Ok (root_id (nodes (push_back s default_node)), push_back s default_node)
    else
      match fuel with
      | O => Fault OutOfFuel
      | S fuel' =>
        let a := Z.to_nat (l + Z.rem (rand (calls s)) (r - l)) in
        if l + Z.rem (rand (calls s)) (r - l) <? 0 then Fault UndefinedBehaviour else
        _ ← at_index (data s) a;
        '(data1, mid) ← std_partition (data s) a l r;
        anchor ← at_index data1 a;
        '(il, s2) ← build_recursively rand fuel' md
                      {| nodes := nodes s; data := data1; calls := S (calls s) |}
                      l mid (d + 1);
        '(ir, s3) ← build_recursively rand fuel' md s2 mid r (d + 1);
        Ok (root_id (nodes (push_back s3 (mkNode anchor il ir))),
            push_back s3 (mkNode anchor il ir))
      end.
Proof. destruct fuel; reflexivity. Qed.

(** The two ways a call can return. *)
Lemma build_recursively_inv fuel md (s : build_state T) l r d i s' :
  build_recursively rand fuel md s l r d = Ok (i, s') ->
  ((r <=? l) || (md <=? d) || (r =? 0) = true
   /\ s' = push_back s default_node /\ i = root_id (nodes s'))
  \/ ((r <=? l) || (md <=? d) || (r =? 0) = false
      /\ exists fuel' data1 mid anchor il ir s2 s3,
        fuel = S fuel'
        /\ std_partition (data s) (Z.to_nat (l + Z.rem (rand (calls s)) (r - l))) l r
           = Ok (data1, mid)
        /\ build_recursively rand fuel' md
             {| nodes := nodes s; data := data1; calls := S (calls s) |} l mid (d + 1)
           = Ok (il, s2)
        /\ build_recursively rand fuel' md s2 mid r (d + 1) = Ok (ir, s3)
        /\ s' = push_back s3 (mkNode anchor il ir)
        /\ i = root_id (nodes s')).
Proof.
  rewrite build_recursively_eq. destruct (_ || _ || _).
  - intros [= <- <-]. by left.
  - intros Hb. right. split; [reflexivity|].
    destruct fuel as [|fuel']; [discriminate|]. cbv zeta in Hb.
    destruct (_ <? 0); [discriminate|].
    inv_bind Hb. inv_bind Hb. destruct a0 as [data1 mid].
    inv_bind Hb. inv_bind Hb. destruct a1 as [il s2].
    inv_bind Hb. destruct a1 as [ir s3]. injection Hb as <- <-.
    by exists fuel', data1, mid, a0, il, ir, s2, s3.
Qed.

(** The same with the element the split value is read from. *)
Lemma build_recursively_inv_anchor fuel md (s : build_state T) l r d i s' :
  build_recursively rand fuel md s l r d = Ok (i, s') ->
  (r <=? l) || (md <=? d) || (r =? 0) = false ->
  exists fuel' data1 mid anchor il ir s2 s3,
    fuel = S fuel'
    /\ std_partition (data s) (Z.to_nat (l + Z.rem (rand (calls s)) (r - l))) l r
       = Ok (data1, mid)
    /\ at_index data1 (Z.to_nat (l + Z.rem (rand (calls s)) (r - l))) = Ok anchor
    /\ build_recursively rand fuel' md
         {| nodes := nodes s; data := data1; calls := S (calls s) |} l mid (d + 1)
       = Ok (il, s2)
    /\ build_recursively rand fuel' md s2 mid r (d + 1) = Ok (ir, s3)
    /\ s' = push_back s3 (mkNode anchor il ir)
    /\ i = root_id (nodes s').
Proof.
  rewrite build_recursively_eq. intros Hb Hc. rewrite Hc in Hb.
  destruct fuel as [|fuel']; [discriminate|]. cbv zeta in Hb.
  destruct (_ <? 0); [discriminate|].
  inv_bind Hb. inv_bind Hb. destruct a0 as [data1 mid].
  inv_bind Hb. inv_bind Hb. destruct a1 as [il s2].
  inv_bind Hb. destruct a1 as [ir s3]. injection Hb as <- <-.
  by exists fuel', data1, mid, a0, il, ir, s2, s3.
Qed.

Lemma std_partition_perm (data data' : list T) (a : nat) (first last mid : Z) :
  std_partition data a first last = Ok (data', mid) -> data' ≡ₚ data.
Proof.
  unfold std_partition. destruct (_ || _); [discriminate|]. intros Hp.
  inv_bind Hp. destruct a0 as [d m]. injection Hp as <- _.
  eapply partition_loop_perm. exact Hstep.
Qed.

(** A returning call only appends, leaves a permutation of the buffer, and
    every node it appends is the default leaf or carries a split value taken
    from the buffer. *)
Lemma build_recursively_values fuel md :
  forall (s : build_state T) l r d i s',
    build_recursively rand fuel md s l r d = Ok (i, s') ->
    data s' ≡ₚ data s
    /\ exists new,
        nodes s' = nodes s ++ new
        /\ Forall (fun n => n = default_node \/ split_value n ∈ data s) new.
Proof.
  induction fuel as [|fuel IH]; intros s l r d i s' Hb;
    (destruct ((r <=? l) || (md <=? d) || (r =? 0)) eqn:Hc;
     [rewrite build_recursively_eq, Hc in Hb; injection Hb as <- <-;
      split; [reflexivity|]; exists [default_node]; split; [reflexivity|];
      constructor; [by left|constructor]|]);
    apply build_recursively_inv_anchor in Hb
      as (f' & d1 & mid & an & il & ir & s2 & s3 & Hf & Hp & Han & Hl & Hr & -> & _);
    try exact Hc; [discriminate|].
  injection Hf as <-.
  apply std_partition_perm in Hp. apply at_index_inv, list_elem_of_lookup_2 in Han.
  apply IH in Hl as (Hd2 & new_l & Hn2 & Hall_l).
  apply IH in Hr as (Hd3 & new_r & Hn3 & Hall_r). simpl in Hd2, Hn2, Hall_l.
  split; [simpl; by rewrite Hd3, Hd2, Hp|].
  exists (new_l ++ new_r ++ [mkNode an il ir]). split.
  - simpl. by rewrite Hn3, Hn2, <- !app_assoc.
  - rewrite !Forall_app. repeat split.
    + eapply Forall_impl; [exact Hall_l|]. intros n [->|Hin]; [by left|right].
      by rewrite <- Hp.
    + eapply Forall_impl; [exact Hall_r|]. intros n [->|Hin]; [by left|right].
      by rewrite <- Hp, <- Hd2.
    + constructor; [|constructor]. right. simpl. by rewrite <- Hp.
Qed.

Lemma build_recursively_grows fuel md :
  forall (s : build_state T) l r d i s',
    build_recursively rand fuel md s l r d = Ok (i, s') ->
    (length (nodes s) < length (nodes s'))%nat.
Proof.
  induction fuel as [|fuel IH]; intros s l r d i s' Hb;
    apply build_recursively_inv in Hb
      as [(_ & -> & _)|(_ & f' & d1 & mid & an & il & ir & s2 & s3 & Hf & _ & Hl & Hr & -> & _)];
    try discriminate Hf; try (simpl; rewrite length_app; simpl; lia).
  injection Hf as <-. apply IH in Hl. apply IH in Hr. simpl in *.
  rewrite length_app. simpl. lia.
Qed.

(** A call at depth [d] appends fewer than [2 ^ (max_depth - d + 1)]
    nodes. *)
Lemma build_recursively_size fuel md :
  forall (s : build_state T) l r d i s',
    build_recursively rand fuel md s l r d = Ok (i, s') ->
    (length (nodes s') < length (nodes s) + 2 ^ S (Z.to_nat (md - d)))%nat.
Proof.
  induction fuel as [|fuel IH]; intros s l r d i s' Hb;
    apply build_recursively_inv in Hb
      as [(_ & -> & _)|(Hc & f' & d1 & mid & an & il & ir & s2 & s3 & Hf & _ & Hl & Hr & -> & _)];
    try discriminate Hf;
    try (simpl nodes; rewrite length_app; simpl length;
         pose proof (Nat.pow_nonzero 2 (Z.to_nat (md - d)) ltac:(lia));
         rewrite Nat.pow_succ_r'; lia).
  injection Hf as <-. apply IH in Hl. apply IH in Hr. simpl nodes in *.
  rewrite !orb_false_iff in Hc. destruct Hc as [[_ Hd] _]. apply Z.leb_gt in Hd.
  replace (Z.to_nat (md - d)) with (S (Z.to_nat (md - (d + 1)))) by lia.
  rewrite length_app. simpl length.
  rewrite (Nat.pow_succ_r' 2 (S (Z.to_nat (md - (d + 1))))). lia.
Qed.

(** What a returning call has appended is the layout of a shape whose
    height respects the depth cap, and the index it returns is the last
    position. *)
Lemma build_recursively_shape fuel md :
  forall (s : build_state T) l r d i s',
    build_recursively rand fuel md s l r d = Ok (i, s') ->
    fits (nodes s') ->
    exists sh,
      nodes s' = nodes s ++ flatten (length (nodes s)) sh
      /\ i = Z.of_nat (length (nodes s')) - 1
      /\ Z.of_nat (height sh) <= Z.max 0 (md - d)
      /\ ((r <=? l) || (md <=? d) || (r =? 0) = false -> sh <> Leaf).
Proof.
  induction fuel as [|fuel IH]; intros s l r d i s' Hb Hfit;
    apply build_recursively_inv in Hb
      as [(Hc & -> & ->)|(Hc & f' & d1 & mid & an & il & ir & s2 & s3 & Hf & _ & Hl & Hr & -> & ->)];
    try discriminate Hf;
    try (exists Leaf; rewrite root_id_eq by exact Hfit; repeat split;
         [simpl; lia | congruence]).
  injection Hf as <-.
  pose proof (build_recursively_grows _ _ _ _ _ _ _ _ Hl) as Hg1.
  pose proof (build_recursively_grows _ _ _ _ _ _ _ _ Hr) as Hg2.
  assert (length (nodes (push_back s3 (mkNode an il ir))) = S (length (nodes s3))) as Hlen
    by (simpl; rewrite length_app; simpl; lia).
  unfold fits in Hfit. rewrite Hlen in Hfit.
  destruct (IH _ _ _ _ _ _ Hl) as (sl & Hnl & -> & Hhl & _); [unfold fits; lia|].
  destruct (IH _ _ _ _ _ _ Hr) as (sr & Hnr & -> & Hhr & _); [unfold fits; lia|].
  simpl in Hnl. exists (Split an sl sr).
  rewrite root_id_eq by (unfold fits; lia).
  repeat split; [| |discriminate].
  - simpl. rewrite Hnr, Hnl, !length_app, !length_flatten, <- !app_assoc.
    reflexivity.
  - rewrite !orb_false_iff in Hc. destruct Hc as [[_ Hd] _].
    apply Z.leb_gt in Hd. simpl height. lia.
Qed.

(** Two calls on the same buffer from the same state of the random source
    append the layout of the same shape, whatever the node vectors they
    append to. *)
Lemma build_recursively_same fuel md :
  forall (s1 s2 : build_state T) l r d i1 s1' i2 s2',
    data s1 = data s2 -> calls s1 = calls s2 ->
    build_recursively rand fuel md s1 l r d = Ok (i1, s1') ->
    build_recursively rand fuel md s2 l r d = Ok (i2, s2') ->
    fits (nodes s1') -> fits (nodes s2') ->
    exists sh,
      nodes s1' = nodes s1 ++ flatten (length (nodes s1)) sh
      /\ nodes s2' = nodes s2 ++ flatten (length (nodes s2)) sh
      /\ i1 = Z.of_nat (length (nodes s1')) - 1
      /\ i2 = Z.of_nat (length (nodes s2')) - 1
      /\ data s1' = data s2' /\ calls s1' = calls s2'.
Proof.
  induction fuel as [|fuel IH]; intros s1 s2 l r d i1 s1' i2 s2' Hd Hcl Hb1 Hb2 Hfit1 Hfit2;
    (destruct ((r <=? l) || (md <=? d) || (r =? 0)) eqn:Hc;
     [rewrite build_recursively_eq, Hc in Hb1, Hb2;
      injection Hb1 as <- <-; injection Hb2 as <- <-;
      exists Leaf; rewrite !root_id_eq by assumption; by repeat split|]);
    apply build_recursively_inv_anchor in Hb1
      as (f1 & d1 & m1 & an1 & il1 & ir1 & p2 & p3 & Hf1 & Hp1 & Han1 & Hl1 & Hr1 & -> & ->);
    try exact Hc; [discriminate|].
  apply build_recursively_inv_anchor in Hb2
    as (f2 & d2 & m2 & an2 & il2 & ir2 & q2 & q3 & Hf2 & Hp2 & Han2 & Hl2 & Hr2 & -> & ->);
    [|exact Hc].
  injection Hf1 as <-. injection Hf2 as <-.
  rewrite <- Hd, <- Hcl in Hp2. rewrite Hp1 in Hp2. injection Hp2 as <- <-.
  rewrite <- Hcl in Han2. rewrite Han1 in Han2. injection Han2 as <-.
  pose proof (build_recursively_grows _ _ _ _ _ _ _ _ Hl1) as Hg1.
  pose proof (build_recursively_grows _ _ _ _ _ _ _ _ Hr1) as Hg2.
  pose proof (build_recursively_grows _ _ _ _ _ _ _ _ Hl2) as Hg3.
  pose proof (build_recursively_grows _ _ _ _ _ _ _ _ Hr2) as Hg4.
  assert (length (nodes (push_back p3 (mkNode an1 il1 ir1))) = S (length (nodes p3))) as Hlen1
    by (simpl; rewrite length_app; simpl; lia).
  assert (length (nodes (push_back q3 (mkNode an1 il2 ir2))) = S (length (nodes q3))) as Hlen2
    by (simpl; rewrite length_app; simpl; lia).
  unfold fits in Hfit1, Hfit2. rewrite Hlen1 in Hfit1. rewrite Hlen2 in Hfit2.
  destruct (IH {| nodes := nodes s1; data := d1; calls := S (calls s1) |}
               {| nodes := nodes s2; data := d1; calls := S (calls s2) |}
               _ _ _ _ _ _ _ eq_refl (f_equal S Hcl) Hl1 Hl2)
    as (sl & Hn1 & Hn2 & -> & -> & Hd' & Hc'); [unfold fits; lia..|].
  destruct (IH _ _ _ _ _ _ _ _ _ Hd' Hc' Hr1 Hr2)
    as (sr & Hn3 & Hn4 & -> & -> & Hd'' & Hc''); [unfold fits; lia..|].
  simpl in Hn1, Hn2. exists (Split an1 sl sr).
  rewrite !root_id_eq by (unfold fits; lia).
  repeat split; [| |exact Hd''|exact Hc''].
  - simpl. rewrite Hn3, Hn1, !length_app, !length_flatten, <- !app_assoc. reflexivity.
  - simpl. rewrite Hn4, Hn2, !length_app, !length_flatten, <- !app_assoc. reflexivity.
Qed.

Hypothesis rand_nonneg : forall k, 0 <= rand k.

(** A call on a range inside the buffer returns, given [max_depth - depth]
    units of fuel, and leaves the length of the buffer as it was. *)
Lemma build_recursively_Ok fuel md :
  forall (s : build_state T) l r d,
    md - d <= Z.of_nat fuel -> 0 <= l -> r <= Z.of_nat (length (data s)) ->
    exists i s', build_recursively rand fuel md s l r d = Ok (i, s')
      /\ length (data s') = length (data s).
Proof.
  induction fuel as [|fuel IH]; intros s l r d Hfuel Hl Hr;
    rewrite build_recursively_eq;
    (destruct (_ || _ || _) eqn:Hc; [eexists _, _; split; reflexivity|]);
    rewrite !orb_false_iff in Hc; destruct Hc as [[Hlr Hd] _];
    apply Z.leb_gt in Hlr, Hd; [lia|].
  cbv zeta.
  pose proof (Z.rem_bound_pos (rand (calls s)) (r - l) (rand_nonneg _) ltac:(lia)) as Hrem.
  destruct (Z.ltb_spec (l + Z.rem (rand (calls s)) (r - l)) 0); [lia|].
  set (a := Z.to_nat (l + Z.rem (rand (calls s)) (r - l))).
  assert (a < length (data s))%nat as Ha by lia.
  destruct (at_index_Ok (data s) a Ha) as (x & -> & _). cbn [mbind outcome_bind].
  destruct (std_partition_Ok (data s) a l r) as (data1 & mid & -> & Hlen1 & Hmid); [lia..|].
  cbn [mbind outcome_bind].
  destruct (at_index_Ok data1 a) as (anchor & -> & _); [lia|]. cbn [mbind outcome_bind].
  destruct (IH {| nodes := nodes s; data := data1; calls := S (calls s) |} l mid (d + 1))
    as (il & s2 & -> & Hlen2); [lia | lia | simpl; lia|].
  cbn [mbind outcome_bind]. simpl in Hlen2.
  destruct (IH s2 mid r (d + 1)) as (ir & s3 & -> & Hlen3); [lia..|].
  cbn [mbind outcome_bind]. eexists _, _; split; [reflexivity|]. simpl. lia.
Qed.

Lemma heap_release {A : Type} (h : list A) (x y : A) :
  take (length h) (<[length h := x]> (h ++ [y])) = h.
Proof. rewrite take_insert_ge by lia. apply take_app_length. Qed.

Lemma ITree_build_inv (t t' : ITree T) (src : nat) (w w' : world T) :
  ITree_build rand t src w = Ok (t', w') ->
  exists range i s,
    heap w !! src = Some range
    /\ build_recursively rand (Z.to_nat (max_depth t)) (max_depth t)
         {| nodes := tree t; data := range; calls := rand_calls w |}
         0 (Z.of_nat (length range)) 0 = Ok (i, s)
    /\ t' = {| tree := nodes s; max_depth := max_depth t |}
    /\ w' = {| heap := heap w; rand_calls := calls s |}.
Proof.
  unfold ITree_build. intros Hb. inv_bind Hb. apply at_index_inv in Hstep.
  cbv zeta in Hb. inv_bind Hb. apply at_index_inv in Hstep0.
  rewrite lookup_app_r, Nat.sub_diag in Hstep0 by lia. injection Hstep0 as <-.
  inv_bind Hb. destruct a0 as [i s]. injection Hb as <- <-.
  exists a, i, s. by rewrite heap_release.
Qed.

(** The nodes a returning [build] leaves behind. *)
Lemma ITree_build_shape (t t' : ITree T) (src : nat) (w w' : world T) :
  ITree_build rand t src w = Ok (t', w') -> fits (tree t') ->
  exists range sh,
    heap w !! src = Some range
    /\ max_depth t' = max_depth t
    /\ tree t' = tree t ++ flatten (length (tree t)) sh
    /\ root_id (tree t') = Z.of_nat (length (tree t') ) - 1
    /\ Z.of_nat (height sh) <= Z.max 0 (max_depth t)
    /\ (range <> [] -> 1 <= max_depth t -> sh <> Leaf).
Proof.
  intros Hb Hfit. apply ITree_build_inv in Hb as (range & i & s & Hsrc & Hrec & -> & _).
  simpl in *.
  destruct (build_recursively_shape _ _ _ _ _ _ _ _ Hrec Hfit) as (sh & Hn & _ & Hh & Hleaf).
  exists range, sh. simpl in Hn. rewrite Z.sub_0_r in Hh.
  repeat split; try assumption; [by apply root_id_eq|].
  intros Hne Hmd. apply Hleaf.
  assert (0 < length range)%nat by (destruct range; [congruence|simpl; lia]).
  rewrite !orb_false_iff, !Z.leb_gt, Z.eqb_neq. lia.
Qed.

(** What a query from the root of a built tree returns. *)
Lemma ITree_build_path (t t' : ITree T) (src : nat) (w w' : world T) :
  ITree_build rand t src w = Ok (t', w') -> fits (tree t') ->
  exists range sh,
    heap w !! src = Some range
    /\ tree t' = tree t ++ flatten (length (tree t)) sh
    /\ Z.of_nat (height sh) <= Z.max 0 (max_depth t)
    /\ (range <> [] -> 1 <= max_depth t -> sh <> Leaf)
    /\ forall ndebug value,
         ndebug = true \/ tree t <> [] ->
         path_length ndebug (S (length (tree t'))) (tree t') value (root_id (tree t')) 0
         = Ok (fp_cast (Z.of_nat (descend sh value) - 1)).
Proof.
  intros Hb Hfit.
  destruct (ITree_build_shape t t' src w w' Hb Hfit)
    as (range & sh & Hsrc & _ & Hn & Hroot & Hh & Hleaf).
  exists range, sh. repeat split; try assumption.
  intros ndebug value Hassert. rewrite Hroot, Hn, length_app, length_flatten.
  rewrite (path_length_flatten value sh ndebug _ (length (tree t))); [reflexivity| | |].
  - apply segment_app.
  - pose proof (height_lt_size sh). lia.
  - destruct Hassert as [->|Hne]; [by left|right].
    destruct (tree t); [congruence|simpl; lia].
Qed.

Lemma ITree_build_Ok (t : ITree T) (src : nat) (w : world T) (range : list T) :
  heap w !! src = Some range ->
  exists t' w', ITree_build rand t src w = Ok (t', w').
Proof.
  intros Hsrc. unfold ITree_build, at_index. rewrite Hsrc. cbn [mbind outcome_bind].
  rewrite lookup_app_r, Nat.sub_diag by lia. cbn [lookup list_lookup mbind outcome_bind].
  destruct (build_recursively_Ok (Z.to_nat (max_depth t)) (max_depth t)
              {| nodes := tree t; data := range; calls := rand_calls w |}
              0 (Z.of_nat (length range)) 0) as (i & s & -> & _); [lia | lia | simpl; lia|].
  cbn [mbind outcome_bind]. eauto.
Qed.

End BuildFacts.

(** ** Facts about shuffling and forests *)

Section ForestFacts.
Context {T : Type} `{FloatingPoint T}.
Variable rand : nat -> Z.

Lemma shuffle_loop_eq fuel (vec : list T) i calls :
  shuffle_loop rand fuel vec i calls
  = if 0 <? i then
      match fuel with
      | O => Fault OutOfFuel
      | S fuel' =>
        if size_t_wrap (i + 1) =? 0 then Fault UndefinedBehaviour else
        vec' ← iter_swap vec (Z.to_nat i)
                 (Z.to_nat (size_t_wrap (rand calls) mod size_t_wrap (i + 1)));
        shuffle_loop rand fuel' vec' (size_t_wrap (i - 1)) (S calls)
      end
    else Ok (vec, calls).
Proof. destruct fuel; reflexivity. Qed.

(** On an empty vector [vec.size() - 1] wraps to [2^64 - 1], the loop is
    entered and [i + 1] wraps to [0]: the remainder is taken by zero. *)
Lemma shuffle_empty (calls : nat) :
  shuffle rand ([] : list T) calls = Fault UndefinedBehaviour.
Proof. reflexivity. Qed.

Lemma shuffle_loop_Ok fuel :
  forall (vec : list T) i calls,
    0 <= i < Z.of_nat (length vec) -> Z.of_nat (length vec) < 2 ^ 64 ->
    i < Z.of_nat fuel ->
    exists vec' calls', shuffle_loop rand fuel vec i calls = Ok (vec', calls')
      /\ length vec' = length vec.
Proof.
  induction fuel as [|fuel IH]; intros vec i calls Hi Hlen Hfuel; [lia|].
  rewrite shuffle_loop_eq. destruct (Z.ltb_spec 0 i); [|eauto].
  unfold size_t_wrap. rewrite (Z.mod_small (i + 1)), (Z.mod_small (i - 1)) by lia.
  destruct (Z.eqb_spec (i + 1) 0); [lia|].
  pose proof (Z.mod_pos_bound (rand calls mod 2 ^ 64) (i + 1) ltac:(lia)) as Hj.
  destruct (iter_swap_Ok vec (Z.to_nat i) (Z.to_nat ((rand calls mod 2 ^ 64) mod (i + 1))))
    as (vec1 & -> & Hlen1); [lia..|].
  cbn [mbind outcome_bind].
  destruct (IH vec1 (i - 1) (S calls)) as (vec' & calls' & -> & Hlen'); [lia..|].
  exists vec', calls'. split; [reflexivity|lia].
Qed.

Lemma shuffle_loop_perm fuel :
  forall (vec vec' : list T) i calls calls',
    shuffle_loop rand fuel vec i calls = Ok (vec', calls') -> vec' ≡ₚ vec.
Proof.
  induction fuel as [|fuel IH]; intros vec vec' i calls calls';
    rewrite shuffle_loop_eq; destruct (0 <? i); try discriminate;
    try (by intros [= <- _]).
  destruct (_ =? 0); [discriminate|]. intros Hs. inv_bind Hs.
  apply IH in Hs. apply iter_swap_perm in Hstep. by rewrite Hs.
Qed.

Lemma shuffle_loop_calls fuel :
  forall (vec vec' : list T) i calls calls',
    0 <= i < 2 ^ 64 ->
    shuffle_loop rand fuel vec i calls = Ok (vec', calls') ->
    calls' = (calls + Z.to_nat i)%nat.
Proof.
  induction fuel as [|fuel IH]; intros vec vec' i calls calls' Hi;
    rewrite shuffle_loop_eq; destruct (Z.ltb_spec 0 i); try discriminate;
    try (intros [= _ <-]; lia).
  destruct (_ =? 0); [discriminate|]. intros Hs. inv_bind Hs.
  unfold size_t_wrap in Hs. rewrite (Z.mod_small (i - 1)) in Hs by lia.
  apply IH in Hs; lia.
Qed.

Lemma shuffle_Ok (vec : list T) (calls : nat) :
  vec <> [] -> Z.of_nat (length vec) < 2 ^ 64 ->
  exists vec' calls', shuffle rand vec calls = Ok (vec', calls')
    /\ length vec' = length vec.
Proof.
  intros Hne Hlen. unfold shuffle.
  assert (0 < length vec)%nat by (destruct vec; [congruence|simpl; lia]).
  unfold size_t_wrap. rewrite Z.mod_small by lia.
  apply shuffle_loop_Ok; lia.
Qed.

Lemma build_trees_inv (ts : list (ITree T)) :
  forall local w ts' w',
    build_trees rand ts local w = Ok (ts', w') ->
    take local (heap w') = take local (heap w) /\ Forall2 (built_from rand) ts ts'.
Proof.
  induction ts as [|t ts IH]; intros local w ts' w' Hb; simpl in Hb.
  - injection Hb as <- <-. split; [reflexivity|constructor].
  - inv_bind Hb. inv_bind Hb. destruct a0 as [vec' c]. inv_bind Hb. destruct a0 as [t' w2].
    inv_bind Hb. destruct a0 as [ts'' w3]. injection Hb as <- <-.
    apply IH in Hstep2 as [Hheap Hall].
    pose proof Hstep1 as Hbuilt.
    apply ITree_build_inv in Hstep1 as (range & i & s & _ & _ & _ & ->).
    simpl in Hheap. rewrite take_insert_ge in Hheap by lia.
    split; [exact Hheap|]. constructor; [|exact Hall]. by eexists _, _, _.
Qed.

(** Every tree of the loop is grown on a permutation of the buffer the loop
    started with. *)
Lemma build_trees_grown (ts : list (ITree T)) :
  forall local w ts' w' vec,
    build_trees rand ts local w = Ok (ts', w') ->
    heap w !! local = Some vec ->
    Forall2 (grown_from rand vec) ts ts'.
Proof.
  induction ts as [|t ts IH]; intros local w ts' w' vec Hb Hvec; simpl in Hb.
  - injection Hb as <- <-. constructor.
  - inv_bind Hb. apply at_index_inv in Hstep. rewrite Hvec in Hstep. injection Hstep as <-.
    inv_bind Hb. destruct a as [vec' c]. inv_bind Hb. destruct a as [t' w2].
    inv_bind Hb. destruct a as [ts'' w3]. injection Hb as <- <-.
    apply shuffle_loop_perm in Hstep.
    assert (local < length (heap w))%nat as Hlt by (eapply lookup_lt_Some; eauto).
    apply ITree_build_inv in Hstep0 as (range & i & s & Hrange & Hrec & -> & ->).
    simpl in Hrange. rewrite list_lookup_insert_eq in Hrange by exact Hlt.
    injection Hrange as <-.
    constructor.
    + exists vec', c, i, s. by repeat split.
    + eapply Forall2_impl; [eapply (IH local _ _ _ vec'); [exact Hstep1|]|].
      * simpl. by apply list_lookup_insert_eq.
      * intros u u' (v & c' & j & s' & Hperm & Hrec' & ->).
        exists v, c', j, s'. repeat split; [by rewrite Hperm|exact Hrec'].
Qed.

(** A forest with at least one tree shuffles the empty copy first. *)
Lemma build_trees_empty (t : ITree T) (ts : list (ITree T)) (local : nat) (w : world T) :
  heap w !! local = Some [] ->
  build_trees rand (t :: ts) local w = Fault UndefinedBehaviour.
Proof.
  intros Hl. cbn [build_trees]. unfold at_index. rewrite Hl.
  cbn [mbind outcome_bind]. by rewrite shuffle_empty.
Qed.

Lemma IForest_build_inv (f f' : IForest T) (src : nat) (w w' : world T) :
  IForest_build rand f src w = Ok (f', w') ->
  heap w' = heap w /\ Forall2 (built_from rand) (trees f) (trees f').
Proof.
  unfold IForest_build. intros Hb. inv_bind Hb. cbv zeta in Hb.
  inv_bind Hb. destruct a0 as [ts w1]. injection Hb as <- <-.
  apply build_trees_inv in Hstep0 as [Hheap Hall]. simpl in *.
  rewrite Hheap, take_app_length. by split.
Qed.

Hypothesis rand_nonneg : forall k, 0 <= rand k.

Lemma build_trees_Ok (ts : list (ITree T)) :
  forall local w vec,
    heap w !! local = Some vec -> vec <> [] -> Z.of_nat (length vec) < 2 ^ 64 ->
    exists ts' w', build_trees rand ts local w = Ok (ts', w').
Proof.
  induction ts as [|t ts IH]; intros local w vec Hl Hne Hlen; simpl; [eauto|].
  unfold at_index at 1. rewrite Hl. cbn [mbind outcome_bind].
  destruct (shuffle_Ok vec (rand_calls w) Hne Hlen) as (vec' & c & -> & Hlen').
  cbn [mbind outcome_bind].
  assert (local < length (heap w))%nat as Hlt by (eapply lookup_lt_Some; eauto).
  destruct (ITree_build_Ok rand rand_nonneg t local
              {| heap := <[local := vec']> (heap w); rand_calls := c |} vec')
    as (t' & w2 & Hb); [simpl; by apply list_lookup_insert_eq|].
  rewrite Hb. cbn [mbind outcome_bind].
  apply ITree_build_inv in Hb as (_ & _ & s & _ & _ & _ & ->). cbn [heap rand_calls].
  destruct (IH local {| heap := <[local := vec']> (heap w); rand_calls := calls s |} vec')
    as (ts' & w3 & ->); [simpl; by apply list_lookup_insert_eq | | lia |].
  { intros ->. destruct vec; [congruence|discriminate]. }
  cbn [mbind outcome_bind]. eauto.
Qed.

Lemma IForest_build_Ok (f : IForest T) (src : nat) (w : world T) (range : list T) :
  heap w !! src = Some range -> range <> [] -> Z.of_nat (length range) < 2 ^ 64 ->
  exists f' w', IForest_build rand f src w = Ok (f', w').
Proof.
  intros Hsrc Hne Hlen. unfold IForest_build, at_index. rewrite Hsrc.
  cbn [mbind outcome_bind]. cbv zeta.
  destruct (build_trees_Ok (trees f) (length (heap w))
              {| heap := heap w ++ [range]; rand_calls := rand_calls w |} range)
    as (ts' & w1 & ->); [simpl; by rewrite lookup_app_r, Nat.sub_diag by lia | done | done |].
  cbn [mbind outcome_bind]. eauto.
Qed.

End ForestFacts.

(** ** Facts about scoring *)

Section ScoreFacts.
Context {T : Type} `{FloatingPoint T}.

Lemma sum_path_lengths_Ok (ndebug : bool) (value : T) (ts : list (ITree T)) :
  forall (ps : list T) (acc : T),
    Forall2 (fun t p =>
      path_length ndebug (S (length (tree t))) (tree t) value (root_id (tree t)) 0 = Ok p)
      ts ps ->
    sum_path_lengths ndebug ts value acc = Ok (fold_left fp_add ps acc).
Proof.
  induction ts as [|t ts IH]; intros ps acc Hall; inversion Hall as [|? p ? ps' Hp Hps]; subst.
  - reflexivity.
  - cbn [sum_path_lengths fold_left]. rewrite Hp. cbn [mbind outcome_bind]. by apply IH.
Qed.

Lemma sum_path_lengths_debug (value : T) (ts : list (ITree T)) :
  forall acc,
    sum_path_lengths false ts value acc = sum_path_lengths true ts value acc
    \/ sum_path_lengths false ts value acc = Fault AssertionFailed.
Proof.
  induction ts as [|t ts IH]; intros acc; cbn [sum_path_lengths]; [by left|].
  destruct (path_length_debug (S (length (tree t))) (tree t) value (root_id (tree t)) 0)
    as [->| ->]; [|by right].
  destruct (path_length true _ _ _ _ _) as [p|f]; cbn [mbind outcome_bind]; [apply IH|by left].
Qed.

(** Every tree of a built forest answers a query from its root. *)
Lemma built_forest_paths (rand : nat -> Z) (value : T) (ts ts' : list (ITree T)) :
  Forall2 (built_from rand) ts ts' ->
  Forall (fun t => fits (tree t)) ts' ->
  exists ps,
    Forall2 (fun t p =>
      path_length true (S (length (tree t))) (tree t) value (root_id (tree t)) 0 = Ok p)
      ts' ps.
Proof.
  induction 1 as [|t t' ts ts' (src & w & w' & Hb) _ IH]; intros Hfit.
  - exists []. constructor.
  - inversion Hfit as [|? ? Hfit1 Hfits]; subst.
    destruct (IH Hfits) as (ps & Hps).
    destruct (ITree_build_path rand t t' src w w' Hb Hfit1) as (_ & sh & _ & _ & _ & _ & Hp).
    eexists (_ :: ps). constructor; [|exact Hps]. apply Hp. by left.
Qed.

(** A tree grown on a non-empty buffer with a depth cap of at least one
    answers every query from its root with a path length between [0] and
    the cap minus one. *)
Lemma grown_path_bounds (rand : nat -> Z) (range : list T) (t t' : ITree T) (value : T) :
  grown_from rand range t t' -> range <> [] -> 1 <= max_depth t -> fits (tree t') ->
  exists r,
    0 <= r <= max_depth t - 1
    /\ path_length true (S (length (tree t'))) (tree t') value (root_id (tree t')) 0
       = Ok (fp_cast r).
Proof.
  intros (vec & c & i & s & Hperm & Hrec & ->) Hne Hmd Hfit. cbn [tree max_depth] in *.
  destruct (build_recursively_shape rand _ _ _ _ _ _ _ _ Hrec Hfit)
    as (sh & Hn & _ & Hh & Hleaf).
  simpl in Hn.
  assert (sh <> Leaf) as Hsh.
  { apply Hleaf. assert (0 < length vec)%nat.
    { rewrite Hperm. destruct range; [congruence|simpl; lia]. }
    rewrite !orb_false_iff, !Z.leb_gt, Z.eqb_neq. lia. }
  exists (Z.of_nat (descend sh value) - 1). split.
  - pose proof (descend_pos sh value Hsh). pose proof (descend_le_height sh value). lia.
  - rewrite root_id_eq by exact Hfit. rewrite Hn, length_app, length_flatten.
    rewrite (path_length_flatten value sh true _ (length (tree t))); [reflexivity| | |by left].
    + apply segment_app.
    + pose proof (height_lt_size sh). lia.
Qed.

Lemma grown_forest_paths (rand : nat -> Z) (range : list T) (value : T) (md : Z)
    (ts ts' : list (ITree T)) :
  Forall2 (grown_from rand range) ts ts' -> range <> [] ->
  Forall (fun t => 1 <= max_depth t <= md) ts -> Forall (fun t => fits (tree t)) ts' ->
  exists rs,
    Forall (fun r => 0 <= r <= md - 1) rs
    /\ Forall2 (fun t p =>
         path_length true (S (length (tree t))) (tree t) value (root_id (tree t)) 0 = Ok p)
         ts' (map fp_cast rs).
Proof.
  intros Hall Hne. induction Hall as [|t t' ts ts' Hg _ IH]; intros Hmd Hfit.
  - exists []. split; constructor.
  - inversion Hmd as [|? ? Hmd1 Hmds]; subst. inversion Hfit as [|? ? Hfit1 Hfits]; subst.
    destruct (IH Hmds Hfits) as (rs & Hrs & Hps).
    destruct (grown_path_bounds rand range t t' value Hg Hne ltac:(lia) Hfit1)
      as (r & Hr & Hp).
    exists (r :: rs). split; constructor; try assumption. lia.
Qed.

End ScoreFacts.

(** ** Facts about the real instance *)

Lemma real_calc_depth_positive (n : Z) : 1 < n -> (0 < calc_depth (T := R) n)%R.
Proof.
  intros Hn. unfold calc_depth. destruct (Z.leb_spec n 1); [lia|].
  cbn [fp_sub fp_mul fp_add fp_div fp_two fp_euler fp_cast cm_log real_fp real_cmath].
  assert (0 < IZR n)%R as Hpos by (apply IZR_lt; lia).
  assert (IZR (n - 1) < IZR n)%R as Hlt by (apply IZR_lt; lia).
  assert (2 * IZR (n - 1) / IZR n < 2)%R as Hfrac.
  { apply (Rmult_lt_reg_r (IZR n)); [exact Hpos|]. unfold Rdiv.
    rewrite Rmult_assoc, Rinv_l by lra. lra. }
  destruct (Z.eq_dec n 2) as [->|Hne].
  - change (2 - 1) with 1. rewrite ln_1. unfold Rdiv in *.
    replace (2 * 1 * / 2)%R with 1%R by lra. lra.
  - assert (2 <= IZR (n - 1))%R as Hge by (apply IZR_le; lia).
    assert (ln 2 <= ln (IZR (n - 1)))%R as Hln.
    { destruct Hge as [Hgt| <-]; [left; apply ln_increasing; lra|right; reflexivity]. }
    pose proof ln_lt_2. lra.
Qed.

Lemma real_sum_bounds (b : Z) (rs : list Z) :
  Forall (fun r => 0 <= r <= b) rs ->
  forall acc : R,
    (acc <= fold_left Rplus (map IZR rs) acc <= acc + INR (length rs) * IZR b)%R.
Proof.
  induction 1 as [|r rs Hr _ IH]; intros acc.
  - simpl. lra.
  - cbn [map fold_left length]. rewrite S_INR. specialize (IH (acc + IZR r)%R).
    destruct Hr as [Hr0 Hrb]. apply IZR_le in Hr0, Hrb. nra.
Qed.

(** * The claims *)

Section TreeClaims.
Context {T : Type} `{FloatingPoint T}.
Variable rand : nat -> Z.
Hypothesis rand_nonneg : forall k, 0 <= rand k.

(** C2.  [build] returns on every sequence, and in the tree it leaves the
    nodes it appended are the post-order layout of a binary tree: the node
    appended last is that tree's root and [root_id()] is its position, the
    size of the node vector minus one; every node is either a leaf with both
    child indices [-1] or has both child indices at strictly earlier
    positions of the vector. *)
Theorem ITree_build_invariant (t : ITree T) (src : nat) (w : world T) (range : list T) :
  heap w !! src = Some range ->
  well_formed (tree t) ->
  exists t' w',
    ITree_build rand t src w = Ok (t', w')
    /\ (fits (tree t') ->
        (exists sh, tree t' = tree t ++ flatten (length (tree t)) sh)
        /\ root_id (tree t') = Z.of_nat (length (tree t')) - 1
        /\ 0 <= root_id (tree t')
        /\ well_formed (tree t')).
Proof.
  intros Hsrc Hwf.
  destruct (ITree_build_Ok rand rand_nonneg t src w range Hsrc) as (t' & w' & Hb).
  exists t', w'. split; [exact Hb|]. intros Hfit.
  destruct (ITree_build_shape rand t t' src w w' Hb Hfit)
    as (range' & sh & _ & _ & Hn & Hroot & _ & _).
  repeat split; [by exists sh | exact Hroot | | ].
  - rewrite Hroot, Hn, length_app, length_flatten. pose proof (size_pos sh). lia.
  - rewrite Hn. by apply well_formed_app_flatten.
Qed.

(** C6 as amended.  On a non-empty sequence and with [max_depth >= 1],
    [build] returns, and a query from the root at depth [0] that the
    assertion does not abort returns a path length that is at least [0] and
    at most [max_depth]. *)
Theorem path_length_bounds (t : ITree T) (src : nat) (w : world T) (range : list T) :
  heap w !! src = Some range ->
  range <> [] ->
  1 <= max_depth t ->
  exists t' w',
    ITree_build rand t src w = Ok (t', w')
    /\ (fits (tree t') ->
        forall ndebug value,
          path_in_bounds (max_depth t)
            (path_length ndebug (S (length (tree t'))) (tree t') value (root_id (tree t')) 0)
          \/ (ndebug = false
              /\ path_length ndebug (S (length (tree t'))) (tree t') value
                   (root_id (tree t')) 0 = Fault AssertionFailed)).
Proof.
  intros Hsrc Hne Hmd.
  destruct (ITree_build_Ok rand rand_nonneg t src w range Hsrc) as (t' & w' & Hb).
  exists t', w'. split; [exact Hb|]. intros Hfit ndebug value.
  destruct (ITree_build_path rand t t' src w w' Hb Hfit)
    as (range' & sh & Hsrc' & _ & Hh & Hleaf & Hp).
  assert (range' = range) as -> by congruence.
  assert (path_in_bounds (max_depth t)
            (path_length true (S (length (tree t'))) (tree t') value (root_id (tree t')) 0))
    as Hin.
  { rewrite Hp by (by left). exists (Z.of_nat (descend sh value) - 1). split; [|reflexivity].
    pose proof (descend_le_height sh value).
    pose proof (descend_pos sh value (Hleaf Hne Hmd)). lia. }
  destruct ndebug; [by left|].
  destruct (path_length_debug (S (length (tree t'))) (tree t') value (root_id (tree t')) 0)
    as [->|Hfail]; [by left|by right].
Qed.

(** C9.  [ITree::build] returns on every sequence and [IForest::build] on
    every non-empty one, and whenever either returns the store is what it was
    before the call: they worked on copies, which are gone, and the caller's
    sequence is untouched.  The tree [ITree::build] leaves is the one
    [build_recursively] makes of a buffer that starts as a copy of the
    caller's sequence. *)
Theorem build_frame (t : ITree T) (f : IForest T) (src : nat) (w : world T)
    (range : list T) :
  heap w !! src = Some range ->
  (exists t' w' i s,
     ITree_build rand t src w = Ok (t', w') /\ heap w' = heap w
     /\ build_recursively rand (Z.to_nat (max_depth t)) (max_depth t)
          {| nodes := tree t; data := range; calls := rand_calls w |}
          0 (Z.of_nat (length range)) 0 = Ok (i, s)
     /\ tree t' = nodes s)
  /\ (forall f' w', IForest_build rand f src w = Ok (f', w') -> heap w' = heap w)
  /\ (range <> [] -> Z.of_nat (length range) < 2 ^ 64 ->
      exists f' w', IForest_build rand f src w = Ok (f', w') /\ heap w' = heap w).
Proof.
  intros Hsrc. repeat split.
  - destruct (ITree_build_Ok rand rand_nonneg t src w range Hsrc) as (t' & w' & Hb).
    pose proof Hb as Hinv.
    apply ITree_build_inv in Hinv as (range' & i & s & Hsrc' & Hrec & -> & ->).
    assert (range' = range) as -> by congruence.
    by exists {| tree := nodes s; max_depth := max_depth t |},
              {| heap := heap w; rand_calls := calls s |}, i, s.
  - intros f' w' Hb. by apply IForest_build_inv in Hb as [Hheap _].
  - intros Hne Hlen.
    destruct (IForest_build_Ok rand rand_nonneg f src w range Hsrc Hne Hlen) as (f' & w' & Hb).
    exists f', w'. split; [exact Hb|]. by apply IForest_build_inv in Hb as [Hheap _].
Qed.

End TreeClaims.

Section PathClaims.
Context {T : Type} `{FloatingPoint T}.


End PathClaims.

Section ForestClaims.
Context {T : Type} `{FloatingPoint T}.
Variable rand : nat -> Z.

(** C4 (the code does otherwise).  On an empty sequence [IForest::build] of
    a forest with at least one tree runs into undefined behaviour in the
    first [shuffle]: no tree is built. *)
Theorem IForest_build_empty (f : IForest T) (src : nat) (w : world T) :
  heap w !! src = Some [] ->
  trees f <> [] ->
  IForest_build rand f src w = Fault UndefinedBehaviour.
Proof.
  intros Hsrc Hne. unfold IForest_build, at_index. rewrite Hsrc.
  cbn [mbind outcome_bind]. cbv zeta.
  destruct (trees f) as [|t ts]; [congruence|].
  rewrite build_trees_empty; [reflexivity|].
  simpl. by rewrite lookup_app_r, Nat.sub_diag by lia.
Qed.

Context `{CMath T}.

(** C10.  [score] hands back the forest and the world it was given, so a
    second call with the same arguments returns the same value; and its
    value does not depend on the world, that is on the state of the random
    source or on the store. *)
Theorem score_deterministic (ndebug : bool) (value : T) (n : Z) (f : IForest T)
    (w w2 : world T) :
  (st ← score ndebug value n (f, w);
   st2 ← score ndebug value n st.2;
   Ok (st.1, st2.1, st2.2))
  = (st ← score ndebug value n (f, w); Ok (st.1, st.1, (f, w)))
  /\ value_of (score ndebug value n (f, w)) = value_of (score ndebug value n (f, w2)).
Proof.
  unfold score.
  destruct (sum_path_lengths ndebug (trees f) value fp_zero) as [total|e] eqn:Hsum;
    cbn [mbind outcome_bind fst snd]; [|by split].
  rewrite Hsum. by split.
Qed.

End ForestClaims.


(** ** Further properties *)

Section FurtherProperties.
Context {T : Type} `{FloatingPoint T}.
Variable rand : nat -> Z.

(** In a tree built from scratch the first node is the leftmost leaf: every
    query below the split values of the left spine descends to position [0]
    and fails the assertion.  A tree that is a single leaf fails it on every
    query. *)
Theorem fresh_tree_assertion (md : Z) (src : nat) (w w' : world T) (t' : ITree T)
    (value : T) :
  ITree_build rand (new_tree md) src w = Ok (t', w') ->
  fits (tree t') ->
  exists sh,
    tree t' = flatten 0 sh
    /\ (below_left_spine sh value = true ->
        path_length false (S (length (tree t'))) (tree t') value (root_id (tree t')) 0
        = Fault AssertionFailed).
Proof.
  intros Hb Hfit.
  destruct (ITree_build_shape rand _ t' src w w' Hb Hfit)
    as (range & sh & _ & _ & Hn & Hroot & _ & _).
  simpl in Hn. exists sh. split; [exact Hn|]. intros Hlow.
  rewrite Hroot, Hn, length_flatten.
  apply path_length_left_spine; [|pose proof (height_lt_size sh); lia|exact Hlow].
  intros k n Hk. exact Hk.
Qed.

(** On an empty sequence, and on any sequence when [max_depth <= 0],
    [ITree::build] appends a single leaf and leaves the random source
    alone. *)
Theorem degenerate_build_single_leaf (t : ITree T) (src : nat) (w : world T)
    (range : list T) :
  heap w !! src = Some range ->
  range = [] \/ max_depth t <= 0 ->
  ITree_build rand t src w
  = Ok ({| tree := tree t ++ [default_node]; max_depth := max_depth t |}, w).
Proof.
  intros Hsrc Hdeg. unfold ITree_build, at_index. rewrite Hsrc.
  cbn [mbind outcome_bind]. cbv zeta.
  rewrite lookup_app_r, Nat.sub_diag by lia. cbn [lookup list_lookup mbind outcome_bind].
  rewrite build_recursively_eq.
  assert ((Z.of_nat (length range) <=? 0) || (max_depth t <=? 0)
          || (Z.of_nat (length range) =? 0) = true) as ->.
  { destruct Hdeg as [->|Hmd]; [reflexivity|].
    apply Z.leb_le in Hmd. rewrite Hmd. by rewrite orb_true_r. }
  cbn [mbind outcome_bind nodes data calls push_back]. rewrite heap_release.
  by destruct w.
Qed.

(** [shuffle] returns on every non-empty vector a vector can hold, and what
    it returns is a permutation of its argument. *)
Theorem shuffle_permutes (vec : list T) (calls : nat) :
  vec <> [] -> Z.of_nat (length vec) < 2 ^ 64 ->
  exists vec' calls', shuffle rand vec calls = Ok (vec', calls') /\ vec' ≡ₚ vec.
Proof.
  intros Hne Hlen.
  destruct (shuffle_Ok rand vec calls Hne Hlen) as (vec' & calls' & Hs & _).
  exists vec', calls'. split; [exact Hs|]. eapply shuffle_loop_perm. exact Hs.
Qed.

(** The partition step over a range inside the buffer, with the anchor
    inside the buffer, returns; it permutes the buffer and its boundary lies
    within the range. *)
Theorem partition_permutes (data : list T) (anchor_index : nat) (first last : Z) :
  0 <= first <= last -> last <= Z.of_nat (length data) ->
  (anchor_index < length data)%nat ->
  exists data' mid,
    std_partition data anchor_index first last = Ok (data', mid)
    /\ data' ≡ₚ data /\ first <= mid <= last.
Proof.
  intros Hfl Hlast Ha.
  destruct (std_partition_Ok data anchor_index first last Hfl Hlast Ha)
    as (data' & mid & Hp & _ & Hmid).
  exists data', mid. repeat split; [exact Hp| |lia..].
  unfold std_partition in Hp. destruct (_ || _); [discriminate|].
  inv_bind Hp. destruct a as [d m]. injection Hp as <- _.
  eapply partition_loop_perm. exact Hstep.
Qed.

(** What the partition step does guarantee when the comparison is a strict
    partial order: it returns; everything before [mid] is less than the
    anchor value [v0] read when the step began, so no element equal to [v0]
    is there; nothing from [mid] on is less than the element the anchor's
    position holds afterwards, the split value the node gets, which is [v0]
    or less than [v0]. *)
Theorem partition_guarantee (data : list T) (anchor_index : nat) (first last : Z) (v0 : T) :
  (forall x : T, fp_lt x x = false) ->
  (forall x y z : T, fp_lt x y = true -> fp_lt y z = true -> fp_lt x z = true) ->
  0 <= first <= last -> last <= Z.of_nat (length data) ->
  data !! anchor_index = Some v0 ->
  exists data' mid,
    std_partition data anchor_index first last = Ok (data', Z.of_nat mid)
    /\ weakly_partitioned v0 anchor_index data' (Z.to_nat first) mid (Z.to_nat last)
    /\ (forall i, (Z.to_nat first <= i < mid)%nat -> data' !! i <> Some v0)
    /\ first <= Z.of_nat mid <= last.
Proof.
  intros Hirr Htrans Hfl Hlast Ha.
  destruct (std_partition_Ok data anchor_index first last Hfl Hlast) as (data' & mid & Hp & _ & Hmid);
    [by eapply lookup_lt_Some|].
  pose proof Hp as Hloop. unfold std_partition in Hloop.
  destruct (_ || _); [discriminate|]. inv_bind Hloop. destruct a as [d m].
  injection Hloop as <- <-. exists d, m.
  apply (partition_loop_spec Hirr Htrans v0 anchor_index (Z.to_nat first) (Z.to_nat last))
    in Hstep as [Hw _]; [|lia|].
  - repeat split; [exact Hp | exact Hw | | lia..].
    intros i Hi Hx. destruct Hw as (v1 & _ & _ & Hleft & _).
    pose proof (Hirr v0) as Hv. rewrite (Hleft i v0 Hi Hx) in Hv. discriminate.
  - exists v0. repeat split; [exact Ha | by left | intros; lia..].
Qed.

Context `{CMath T}.

(** For a data size of at most one [calc_depth] returns the zero of the
    value type, and [score] divides the average path length by it without a
    check: the call reports no error and returns two to the power of that
    quotient. *)
Theorem score_divides_by_zero (ndebug : bool) (value total : T) (n : Z)
    (f : IForest T) (w : world T) :
  n <= 1 ->
  sum_path_lengths ndebug (trees f) value fp_zero = Ok total ->
  calc_depth n = fp_zero
  /\ score ndebug value n (f, w)
     = Ok (cm_pow fp_two
             (fp_div (fp_div total (fp_cast (Z.of_nat (length (trees f))))) fp_zero),
           (f, w)).
Proof.
  intros Hn Hsum.
  assert (calc_depth n = fp_zero) as Hc.
  { unfold calc_depth. destruct (Z.leb_spec n 1); [reflexivity|lia]. }
  split; [exact Hc|]. unfold score. rewrite Hsum. cbn [mbind outcome_bind]. by rewrite Hc.
Qed.

(** On a built forest whose node vectors fit the index type, every
    tree answers the query from its root, and [score] returns two to the
    power [h / c(n)], not negated, where [h] is the sum of those path
    lengths divided by the number of trees and [c(n)] is [calc_depth], which
    for [n > 1] is [2*(ln(n-1) + 0.5772156649) - 2*(n-1)/n].  With the
    assertion compiled in, [score] returns the same value or the assertion
    aborts it. *)
Theorem score_formula (f f' : IForest T) (src : nat) (w w' wq : world T)
    (value : T) (n : Z) :
  IForest_build rand f src w = Ok (f', w') ->
  Forall (fun t => fits (tree t)) (trees f') ->
  exists ps,
    Forall2 (fun t p =>
      path_length true (S (length (tree t))) (tree t) value (root_id (tree t)) 0 = Ok p)
      (trees f') ps
    /\ score true value n (f', wq) = Ok (score_spec ps (calc_depth n), (f', wq))
    /\ (score false value n (f', wq) = Ok (score_spec ps (calc_depth n), (f', wq))
        \/ score false value n (f', wq) = Fault AssertionFailed)
    /\ (1 < n -> calc_depth n = expected_path_length n).
Proof.
  intros Hb Hfit. apply IForest_build_inv in Hb as [_ Hall].
  destruct (built_forest_paths rand value _ _ Hall Hfit) as (ps & Hps).
  exists ps. split; [exact Hps|].
  pose proof (sum_path_lengths_Ok true value _ _ fp_zero Hps) as Hsum.
  pose proof (Forall2_length _ _ _ Hps) as Hlen.
  assert (score true value n (f', wq) = Ok (score_spec ps (calc_depth n), (f', wq))) as Htrue.
  { unfold score, score_spec. rewrite Hsum. cbn [mbind outcome_bind]. by rewrite Hlen. }
  split; [exact Htrue|]. split.
  - unfold score in *.
    destruct (sum_path_lengths_debug value (trees f') fp_zero) as [->| ->];
      [left; exact Htrue|by right].
  - intros Hn. unfold calc_depth, expected_path_length.
    destruct (Z.leb_spec n 1); [lia|reflexivity].
Qed.

End FurtherProperties.

(** In binary64 arithmetic the quotient of any number by zero is a NaN or
    an infinity; [-1 / 0], the quotient for a forest of single leaves, is
    minus infinity. *)
Theorem double_division_by_zero (h : float) :
  match Prim2SF (@fp_div float double_fp h fp_zero) with
  | S754_nan | S754_infinity _ => True
  | _ => False
  end
  /\ @fp_div float double_fp (double_of_Z (-1)) fp_zero = neg_infinity.
Proof.
  split; [|reflexivity].
  cbn [fp_div fp_zero double_fp]. rewrite FloatAxioms.div_spec.
  change (Prim2SF 0%float) with (S754_zero false).
  destruct (Prim2SF h); simpl; exact I.
Qed.

(** In exact real arithmetic the expected path length is positive for every
    data size above one, so [score] divides by a non-zero number there. *)
Theorem calc_depth_real_positive (n : Z) :
  1 < n -> (0 < calc_depth (T := R) n)%R.
Proof. intros Hn. by apply real_calc_depth_positive. Qed.

(** ** Properties of the remaining behaviour *)

Section BuildProperties.
Context {T : Type} `{FloatingPoint T}.
Variable rand : nat -> Z.
Hypothesis rand_nonneg : forall k, 0 <= rand k.

(** [ITree::build] appends at least one node and fewer than
    [2 ^ (max_depth + 1)] nodes, whatever the sequence; so a tree built from
    scratch with [max_depth <= 61] fits the index type. *)
Theorem ITree_build_size (t : ITree T) (src : nat) (w : world T) (range : list T) :
  heap w !! src = Some range ->
  exists t' w',
    ITree_build rand t src w = Ok (t', w')
    /\ Z.of_nat (length (tree t)) < Z.of_nat (length (tree t'))
       < Z.of_nat (length (tree t)) + 2 ^ (Z.max 0 (max_depth t) + 1)
    /\ (tree t = [] -> max_depth t <= 61 -> fits (tree t')).
Proof.
  intros Hsrc.
  destruct (ITree_build_Ok rand rand_nonneg t src w range Hsrc) as (t' & w' & Hb).
  exists t', w'. split; [exact Hb|].
  apply ITree_build_inv in Hb as (range' & i & s & _ & Hrec & -> & _). cbn [tree].
  pose proof (build_recursively_grows rand _ _ _ _ _ _ _ _ Hrec) as Hlo.
  pose proof (build_recursively_size rand _ _ _ _ _ _ _ _ Hrec) as Hhi.
  cbn [nodes] in Hlo, Hhi. rewrite Z.sub_0_r in Hhi.
  assert (Z.of_nat (length (nodes s))
          < Z.of_nat (length (tree t)) + 2 ^ (Z.max 0 (max_depth t) + 1)) as Hz.
  { apply inj_lt in Hhi. rewrite Nat2Z.inj_add, Nat2Z.inj_pow in Hhi.
    replace (Z.of_nat (S (Z.to_nat (max_depth t)))) with (Z.max 0 (max_depth t) + 1) in Hhi
      by lia.
    exact Hhi. }
  split; [lia|]. intros Hnil Hmd. unfold fits. rewrite Hnil in Hz. simpl in Hz.
  assert (2 ^ (Z.max 0 (max_depth t) + 1) <= 2 ^ 62) by (apply Z.pow_le_mono_r; lia).
  assert (2 ^ 62 < 2 ^ 63) by reflexivity. lia.
Qed.

(** [ITree::build] only appends to the node vector, and every node it
    appends is the default leaf or carries a split value that occurs in the
    sequence. *)
Theorem split_values_from_sequence (t : ITree T) (src : nat) (w : world T)
    (range : list T) :
  heap w !! src = Some range ->
  exists t' w' new,
    ITree_build rand t src w = Ok (t', w')
    /\ tree t' = tree t ++ new
    /\ Forall (fun n => n = default_node \/ split_value n ∈ range) new.
Proof.
  intros Hsrc.
  destruct (ITree_build_Ok rand rand_nonneg t src w range Hsrc) as (t' & w' & Hb).
  pose proof Hb as Hinv.
  apply ITree_build_inv in Hinv as (range' & i & s & Hsrc' & Hrec & -> & _).
  assert (range' = range) as -> by congruence.
  apply build_recursively_values in Hrec as (_ & new & Hn & Hall).
  by exists {| tree := nodes s; max_depth := max_depth t |}, w', new.
Qed.

(** Building a tree on top of an existing node vector gives the answers of
    a tree built from scratch on the same sequence from the same state of the
    random source, and leaves the random source in the same state; the nodes
    already there only shift the positions.  When the vector was not empty,
    no query from the root fails the assertion. *)
Theorem rebuild_same_answers (t : ITree T) (src : nat) (w : world T) (range : list T) :
  heap w !! src = Some range ->
  exists t' w' t0 w0,
    ITree_build rand t src w = Ok (t', w')
    /\ ITree_build rand (new_tree (max_depth t)) src w = Ok (t0, w0)
    /\ (fits (tree t') -> fits (tree t0) ->
        w' = w0
        /\ (forall value,
              path_length true (S (length (tree t'))) (tree t') value (root_id (tree t')) 0
              = path_length true (S (length (tree t0))) (tree t0) value (root_id (tree t0)) 0)
        /\ (tree t <> [] -> forall value,
              path_length false (S (length (tree t'))) (tree t') value (root_id (tree t')) 0
              = path_length true (S (length (tree t'))) (tree t') value (root_id (tree t')) 0)).
Proof.
  intros Hsrc.
  destruct (ITree_build_Ok rand rand_nonneg t src w range Hsrc) as (t' & w' & Hb).
  destruct (ITree_build_Ok rand rand_nonneg (new_tree (max_depth t)) src w range Hsrc)
    as (t0 & w0 & Hb0).
  exists t', w', t0, w0. split; [exact Hb|]. split; [exact Hb0|]. intros Hfit Hfit0.
  destruct (ITree_build_path rand t t' src w w' Hb Hfit) as (_ & sh' & _ & _ & _ & _ & Hp').
  apply ITree_build_inv in Hb as (r1 & i1 & s1 & Hs1 & Hrec1 & -> & ->).
  apply ITree_build_inv in Hb0 as (r0 & i0 & s0 & Hs0 & Hrec0 & -> & ->).
  assert (r1 = range) as -> by congruence. assert (r0 = range) as -> by congruence.
  cbn [tree max_depth new_tree] in *.
  destruct (build_recursively_same rand _ _
              {| nodes := tree t; data := range; calls := rand_calls w |}
              {| nodes := []; data := range; calls := rand_calls w |}
              _ _ _ _ _ _ _ eq_refl eq_refl
              Hrec1 Hrec0 Hfit Hfit0) as (sh & Hn1 & Hn0 & _ & _ & _ & Hcalls).
  cbn [nodes] in Hn1, Hn0. repeat split.
  - by rewrite Hcalls.
  - intros value. rewrite !root_id_eq by assumption.
    rewrite Hn1, Hn0, !length_app, !length_flatten.
    pose proof (height_lt_size sh).
    rewrite (path_length_flatten value sh true _ (length (tree t)));
      [|apply segment_app|lia|by left].
    change (length (@nil (INode T))) with 0%nat.
    rewrite (path_length_flatten value sh true _ 0); [reflexivity| |lia|by left].
    apply (segment_app []).
  - intros Hne value. rewrite (Hp' false value) by (by right).
    by rewrite (Hp' true value) by (by left).
Qed.

(** On a non-empty sequence [IForest::build] keeps the number of trees and
    their depth caps; each tree is grown by [build_recursively] on a
    permutation of the sequence, so it only gains nodes, each the default
    leaf or a node whose split value occurs in the sequence. *)
Theorem IForest_build_trees (f : IForest T) (src : nat) (w : world T) (range : list T) :
  heap w !! src = Some range ->
  range <> [] -> Z.of_nat (length range) < 2 ^ 64 ->
  exists f' w',
    IForest_build rand f src w = Ok (f', w')
    /\ length (trees f') = length (trees f)
    /\ Forall2 (grown_from rand range) (trees f) (trees f')
    /\ Forall2 (fun t t' =>
         max_depth t' = max_depth t
         /\ exists new,
             tree t' = tree t ++ new
             /\ Forall (fun n => n = default_node \/ split_value n ∈ range) new)
         (trees f) (trees f').
Proof.
  intros Hsrc Hne Hlen.
  destruct (IForest_build_Ok rand rand_nonneg f src w range Hsrc Hne Hlen) as (f' & w' & Hb).
  exists f', w'. split; [exact Hb|].
  unfold IForest_build in Hb. inv_bind Hb. apply at_index_inv in Hstep.
  assert (a = range) as -> by congruence. cbv zeta in Hb.
  inv_bind Hb. destruct a as [ts w1]. injection Hb as <- _. cbn [trees].
  apply (build_trees_grown rand _ _ _ _ _ range) in Hstep0;
    [|simpl; by rewrite lookup_app_r, Nat.sub_diag by lia].
  split; [symmetry; by eapply Forall2_length|]. split; [exact Hstep0|].
  eapply Forall2_impl; [exact Hstep0|].
  intros t t' (vec & c & i & s & Hperm & Hrec & ->). split; [reflexivity|].
  apply build_recursively_values in Hrec as (_ & new & Hn & Hall).
  exists new. split; [exact Hn|].
  eapply Forall_impl; [exact Hall|]. intros n [->|Hin]; [by left|right].
  simpl in Hin. by rewrite <- Hperm.
Qed.

(** [shuffle] on a non-empty vector draws exactly one random number per
    element but the first. *)
Theorem shuffle_consumes (vec : list T) (calls : nat) :
  vec <> [] -> Z.of_nat (length vec) < 2 ^ 64 ->
  exists vec',
    shuffle rand vec calls = Ok (vec', (calls + (length vec - 1))%nat)
    /\ length vec' = length vec.
Proof.
  intros Hne Hlen.
  destruct (shuffle_Ok rand vec calls Hne Hlen) as (vec' & calls' & Hs & Hl).
  exists vec'. split; [|exact Hl]. rewrite Hs. do 2 f_equal.
  assert (0 < length vec)%nat by (destruct vec; [congruence|simpl; lia]).
  unfold shuffle, size_t_wrap in Hs. rewrite Z.mod_small in Hs by lia.
  apply shuffle_loop_calls in Hs; lia.
Qed.

End BuildProperties.

Section QueryProperties.
Context {T : Type} `{FloatingPoint T}.

(** On every node vector that satisfies the invariant of [build], a query
    from any position of the vector reads no position outside it and
    follows at most as many edges as the position it starts from; with the
    assertion compiled in it may instead fail the assertion. *)
Theorem query_stays_in_bounds (nodes : list (INode T)) (node_index : Z) :
  well_formed nodes ->
  0 <= node_index < Z.of_nat (length nodes) ->
  forall ndebug value depth,
    (exists r,
       path_length ndebug (S (length nodes)) nodes value node_index depth = Ok (fp_cast r)
       /\ depth - 1 <= r <= depth - 1 + node_index)
    \/ (ndebug = false
        /\ path_length ndebug (S (length nodes)) nodes value node_index depth
           = Fault AssertionFailed).
Proof.
  intros Hwf Hi ndebug value depth.
  destruct (path_length_well_formed nodes value (S (length nodes)) Hwf
              (Z.to_nat node_index) depth) as (r & Hp & Hr); [lia..|].
  rewrite Z2Nat.id in Hp, Hr by lia.
  destruct ndebug; [left; by exists r|].
  destruct (path_length_debug (S (length nodes)) nodes value node_index depth) as [->|Hf];
    [left; by exists r|by right].
Qed.

Context `{CMath T}.

(** [score] on a forest whose first tree was never built starts
    [path_length] at [root_id() = -1]: the assertion fails, or without it
    the node vector is read out of bounds. *)
Theorem score_before_build (ndebug : bool) (value : T) (n : Z) (f : IForest T)
    (t : ITree T) (ts : list (ITree T)) (w : world T) :
  trees f = t :: ts -> tree t = [] ->
  score ndebug value n (f, w)
  = Fault (if ndebug then UndefinedBehaviour else AssertionFailed).
Proof.
  intros Hts Hnil. unfold score. rewrite Hts. cbn [sum_path_lengths]. rewrite Hnil.
  by destruct ndebug.
Qed.

End QueryProperties.

Section ForestQueryProperties.
Context {T : Type} `{FloatingPoint T} `{CMath T}.
Variable rand : nat -> Z.
Hypothesis rand_nonneg : forall k, 0 <= rand k.

(** With the assertion compiled in, a forest whose first tree was built
    from scratch aborts the score of every value that is below all the
    values of the training sequence: such a query runs down the left spine
    of that tree to position [0]. *)
Theorem score_below_minimum_aborts (f : IForest T) (t : ITree T) (ts : list (ITree T))
    (src : nat) (w : world T) (range : list T) (value : T) :
  heap w !! src = Some range ->
  range <> [] -> Z.of_nat (length range) < 2 ^ 64 ->
  trees f = t :: ts -> tree t = [] ->
  (forall x, x ∈ range -> fp_lt value x = true) ->
  exists f' w',
    IForest_build rand f src w = Ok (f', w')
    /\ (Forall (fun t => fits (tree t)) (trees f') ->
        forall n wq, score false value n (f', wq) = Fault AssertionFailed).
Proof.
  intros Hsrc Hne Hlen Hts Hnil Hlow.
  destruct (IForest_build_Ok rand rand_nonneg f src w range Hsrc Hne Hlen) as (f' & w' & Hb).
  exists f', w'. split; [exact Hb|]. intros Hfit n wq.
  unfold IForest_build in Hb. inv_bind Hb. apply at_index_inv in Hstep.
  assert (a = range) as -> by congruence. cbv zeta in Hb.
  inv_bind Hb. destruct a as [ts' w1]. injection Hb as <- _. cbn [trees] in *.
  apply (build_trees_grown rand _ _ _ _ _ range) in Hstep0;
    [|simpl; by rewrite lookup_app_r, Nat.sub_diag by lia].
  rewrite Hts in Hstep0.
  inversion Hstep0 as [|? t' ? ts'' (vec & c & i & s & Hperm & Hrec & ->) _]; subst.
  inversion Hfit as [|? ? Hfit1 _]; subst. cbn [tree] in Hfit1.
  destruct (build_recursively_shape rand _ _ _ _ _ _ _ _ Hrec Hfit1) as (sh & Hn & _ & _ & _).
  pose proof Hrec as Hval.
  apply build_recursively_values in Hval as (_ & new & Hn' & Hall).
  cbn [nodes data] in Hn, Hn', Hall. rewrite Hnil in Hn, Hn'. simpl in Hn, Hn'.
  assert (below_left_spine sh value = true) as Hspine.
  { apply (flatten_below_spine range value sh Hlow 0%nat). rewrite <- Hn, Hn'.
    eapply Forall_impl; [exact Hall|]. intros m [->|Hin]; [by left|right].
    by rewrite <- Hperm. }
  unfold score. cbn [trees sum_path_lengths tree].
  rewrite root_id_eq by exact Hfit1. rewrite Hn, length_flatten.
  rewrite (path_length_left_spine value sh); [reflexivity| |pose proof (height_lt_size sh); lia
                                              |exact Hspine].
  intros k m Hk. exact Hk.
Qed.

End ForestQueryProperties.

(** In exact real arithmetic, for a data size above one, every score of a
    forest with at least one tree, depth caps between one and [md] and built
    on a non-empty sequence lies between [1] and
    [2 ^ ((md - 1) / c(n))]: the exponent [h / c(n)] is not negated and is
    never negative. *)
Theorem score_real_range (rand : nat -> Z) (f : IForest R) (src : nat)
    (w : world R) (range : list R) (n md : Z) :
  (forall k, 0 <= rand k) ->
  heap w !! src = Some range ->
  range <> [] -> Z.of_nat (length range) < 2 ^ 64 ->
  trees f <> [] -> Forall (fun t => 1 <= max_depth t <= md) (trees f) ->
  1 < n ->
  exists f' w',
    IForest_build rand f src w = Ok (f', w')
    /\ (Forall (fun t => fits (tree t)) (trees f') ->
        forall value wq,
          exists x,
            score true value n (f', wq) = Ok (x, (f', wq))
            /\ (1 <= x <= Rpower 2 (IZR (md - 1) / calc_depth n))%R).
Proof.
  intros Hrand Hsrc Hne Hlen Hts Hmd Hn.
  destruct (IForest_build_Ok rand Hrand f src w range Hsrc Hne Hlen) as (f' & w' & Hb).
  exists f', w'. split; [exact Hb|]. intros Hfit value wq.
  unfold IForest_build in Hb. inv_bind Hb. apply at_index_inv in Hstep.
  assert (a = range) as -> by congruence. cbv zeta in Hb.
  inv_bind Hb. destruct a as [ts' w1]. injection Hb as <- _. cbn [trees] in *.
  apply (build_trees_grown rand _ _ _ _ _ range) in Hstep0;
    [|simpl; by rewrite lookup_app_r, Nat.sub_diag by lia].
  destruct (grown_forest_paths rand range value md _ _ Hstep0 Hne Hmd Hfit)
    as (rs & Hrs & Hps).
  pose proof (sum_path_lengths_Ok true value _ _ fp_zero Hps) as Hsum.
  pose proof (Forall2_length _ _ _ Hstep0) as Hcount.
  pose proof (Forall2_length _ _ _ Hps) as Hcount'. rewrite length_map in Hcount'.
  eexists. split.
  { unfold score. cbn [trees]. rewrite Hsum. cbn [mbind outcome_bind]. reflexivity. }
  cbn [cm_pow real_cmath fp_two fp_div fp_cast fp_add fp_zero real_fp].
  assert (0 < length ts')%nat as Hpos.
  { rewrite <- Hcount. destruct (trees f); [congruence|simpl; lia]. }
  pose proof (real_sum_bounds (md - 1) rs Hrs 0%R) as [Hlo Hhi].
  rewrite <- Hcount', Rplus_0_l in Hhi.
  pose proof (real_calc_depth_positive n Hn) as Hc.
  rewrite <- INR_IZR_INZ.
  assert (0 < INR (length ts'))%R as Hk by (apply lt_0_INR; lia).
  set (total := fold_left Rplus (map IZR rs) 0%R) in *.
  assert (0 <= total / INR (length ts') <= IZR (md - 1))%R as [Havg0 Havg1].
  { split.
    - unfold Rdiv. apply Rmult_le_pos; [exact Hlo|left; by apply Rinv_0_lt_compat].
    - apply (Rmult_le_reg_r (INR (length ts'))); [exact Hk|].
      unfold Rdiv. rewrite Rmult_assoc, Rinv_l by lra. lra. }
  split.
  - rewrite <- (Rpower_O 2) at 1 by lra. apply Rle_Rpower; [lra|].
    unfold Rdiv at 1. apply Rmult_le_pos; [exact Havg0|left; by apply Rinv_0_lt_compat].
  - apply Rle_Rpower; [lra|]. unfold Rdiv at 1 3.
    apply Rmult_le_compat_r; [left; by apply Rinv_0_lt_compat|exact Havg1].
Qed.

(** The constructor of a tree throws [std::length_error] for every negative
    [max_depth], whose conversion to [std::size_t] exceeds [max_size()]; so a
    tree it returns has a [max_depth] of at least zero, and is the empty tree
    with that cap.  It does return for a cap of at most [100] that the
    allocator grants. *)
Theorem constructed_tree {T : Type} `{FloatingPoint T} (max_size : Z) (grants : Z -> bool)
    (md : Z) :
  - 2 ^ 63 <= md < 2 ^ 63 ->
  0 <= max_size < 2 ^ 63 ->
  (md < 0 -> ITree_ctor (T := T) max_size grants md = Fault LengthError)
  /\ (forall t : ITree T,
        ITree_ctor max_size grants md = Ok t -> t = new_tree md /\ 0 <= md)
  /\ (0 <= md <= 100 -> md <= max_size -> md = 0 \/ grants md = true ->
      ITree_ctor (T := T) max_size grants md = Ok (new_tree md)).
Proof.
  intros Hmd Hmax.
  assert (md < 0 -> ITree_ctor (T := T) max_size grants md = Fault LengthError) as Hneg.
  { intros Hlt. unfold ITree_ctor, reserve_argument, size_t_wrap.
    destruct (Z.ltb_spec 100 md); [lia|]. destruct (Z.leb_spec (2 ^ 63) md); [lia|].
    cbn [mbind outcome_bind].
    replace (md mod 2 ^ 64) with (md + 2 ^ 64)
      by (apply (Z.mod_unique _ _ (-1)); lia).
    destruct (Z.ltb_spec max_size (md + 2 ^ 64)); [reflexivity|lia]. }
  split; [exact Hneg|]. split.
  - intros t Ht. destruct (Z.lt_ge_cases md 0) as [Hlt|Hge].
    + rewrite (Hneg Hlt) in Ht. discriminate.
    + split; [|exact Hge]. unfold ITree_ctor in Ht.
      destruct (reserve_argument md) as [k|]; cbn [mbind outcome_bind] in Ht; [|discriminate].
      destruct (max_size <? k); [discriminate|].
      destruct ((0 <? k) && negb (grants k)); [discriminate|]. by injection Ht.
  - intros Hr Hle Hg. unfold ITree_ctor, reserve_argument, size_t_wrap.
    destruct (Z.ltb_spec 100 md); [lia|]. destruct (Z.leb_spec (2 ^ 63) md); [lia|].
    cbn [mbind outcome_bind]. rewrite Z.mod_small by lia.
    destruct (Z.ltb_spec max_size md); [lia|].
    destruct Hg as [->| ->]; [reflexivity|]. by rewrite andb_false_r.
Qed.

(** ** Concrete runs *)

Lemma rand_odd_nonneg (k : nat) : 0 <= rand_odd k.
Proof. unfold rand_odd. lia. Qed.

Lemma real_lt_irrefl (x : R) : fp_lt x x = false.
Proof. cbn [fp_lt real_fp]. unfold real_lt. destruct (Rlt_dec x x); [lra|reflexivity]. Qed.

Lemma real_lt_trans (x y z : R) : fp_lt x y = true -> fp_lt y z = true -> fp_lt x z = true.
Proof.
  cbn [fp_lt real_fp]. unfold real_lt.
  destruct (Rlt_dec x y), (Rlt_dec y z), (Rlt_dec x z); try discriminate; try reflexivity; lra.
Qed.

Lemma well_formed_nil {T : Type} `{FloatingPoint T} : well_formed ([] : list (INode T)).
Proof. intros i n Hi. destruct i; discriminate. Qed.

Lemma ITree_build_invariant_witness :
  exists t' w',
    ITree_build rand_odd (new_tree 2) 0 sample_world = Ok (t', w')
    /\ (fits (tree t') ->
        (exists sh, tree t' = [] ++ flatten 0 sh)
        /\ root_id (tree t') = Z.of_nat (length (tree t')) - 1
        /\ 0 <= root_id (tree t')
        /\ well_formed (tree t')).
Proof.
  exact (ITree_build_invariant rand_odd rand_odd_nonneg (new_tree 2) 0 sample_world
           [5; 4; 7; 3; 1]%float eq_refl well_formed_nil).
Defined.


Lemma path_length_bounds_witness :
  exists t' w',
    ITree_build rand_odd (new_tree 2) 0 sample_world = Ok (t', w')
    /\ (fits (tree t') ->
        forall ndebug value,
          path_in_bounds 2
            (path_length ndebug (S (length (tree t'))) (tree t') value (root_id (tree t')) 0)
          \/ (ndebug = false
              /\ path_length ndebug (S (length (tree t'))) (tree t') value
                   (root_id (tree t')) 0 = Fault AssertionFailed)).
Proof.
  refine (path_length_bounds rand_odd rand_odd_nonneg (new_tree 2) 0 sample_world
            [5; 4; 7; 3; 1]%float eq_refl _ _).
  - discriminate.
  - simpl. lia.
Defined.

(** C6 as stated fails: with [max_depth = 1] the tree built from the empty
    sequence is a single leaf, and the query from its root returns [-1]. *)
Lemma path_length_negative_on_empty :
  ITree_build rand_zero (new_tree 1) 0 empty_world = Ok (leaf_tree 1, empty_world)
  /\ 1 <= max_depth (leaf_tree (T := float) 1)
  /\ fits (tree (leaf_tree (T := float) 1))
  /\ path_length true 2 (tree (leaf_tree 1)) 3%float (root_id (tree (leaf_tree (T := float) 1))) 0
     = Ok (-1)%float
  /\ ~ path_in_bounds 1
        (path_length true 2 (tree (leaf_tree 1)) 3%float
           (root_id (tree (leaf_tree (T := float) 1))) 0).
Proof.
  split; [reflexivity|]. split; [simpl; lia|]. split; [unfold fits; simpl; lia|].
  split; [reflexivity|]. intros (r & Hr & Heq).
  change (Ok (-1)%float = Ok (double_of_Z r)) in Heq. injection Heq as Heq.
  assert (r = 0 \/ r = 1) as [-> | ->] by lia;
    apply (f_equal (fun x => PrimFloat.ltb x 0)) in Heq; vm_compute in Heq; discriminate.
Qed.

Lemma build_frame_witness :
  (exists t' w' i s,
     ITree_build rand_odd (new_tree 2) 0 sample_world = Ok (t', w')
     /\ heap w' = heap sample_world
     /\ build_recursively rand_odd 2 2
          {| nodes := []; data := [5; 4; 7; 3; 1]%float; calls := 0 |} 0 5 0 = Ok (i, s)
     /\ tree t' = nodes s)
  /\ (forall f' w', IForest_build rand_odd (new_forest 2 2) 0 sample_world = Ok (f', w') ->
      heap w' = heap sample_world)
  /\ ([5; 4; 7; 3; 1]%float <> [] -> Z.of_nat (length [5; 4; 7; 3; 1]%float) < 2 ^ 64 ->
      exists f' w', IForest_build rand_odd (new_forest 2 2) 0 sample_world = Ok (f', w')
        /\ heap w' = heap sample_world).
Proof.
  exact (build_frame rand_odd rand_odd_nonneg (new_tree 2) (new_forest 2 2) 0 sample_world
           [5; 4; 7; 3; 1]%float eq_refl).
Defined.

Lemma IForest_build_empty_witness :
  IForest_build rand_zero (new_forest 1 3) 0 empty_world = Fault UndefinedBehaviour.
Proof.
  refine (IForest_build_empty rand_zero (new_forest 1 3) 0 empty_world eq_refl _).
  discriminate.
Defined.

Lemma score_formula_witness :
  exists ps,
    Forall2 (fun t p =>
      path_length true (S (length (tree t))) (tree t) 3%R (root_id (tree t)) 0 = Ok p)
      (trees real_forest) ps
    /\ score true 3%R 6 (real_forest, real_world)
       = Ok (score_spec ps (calc_depth 6), (real_forest, real_world))
    /\ (score false 3%R 6 (real_forest, real_world)
        = Ok (score_spec ps (calc_depth 6), (real_forest, real_world))
        \/ score false 3%R 6 (real_forest, real_world) = Fault AssertionFailed)
    /\ (1 < 6 -> calc_depth (T := R) 6 = expected_path_length 6).
Proof.
  refine (score_formula rand_zero (new_forest 1 0) real_forest 0
            real_world real_world real_world 3%R 6 eq_refl _).
  repeat constructor. unfold fits. simpl. lia.
Defined.

(** C5 (the code does otherwise).  The tree built from the sequence [5]
    with [max_depth = 1] has its root at position [2] and the root's left
    child at position [0]; the query [3] is below the split value [5],
    descends to position [0] and fails the assertion there.  Without the
    assertion the same query returns [0]. *)
Theorem assertion_fails_on_built_tree :
  ITree_build rand_zero (new_tree 1) 0 single_world = Ok (single_tree, {| heap := [[5]%float]; rand_calls := 1 |})
  /\ root_id (tree single_tree) = 2
  /\ path_length false 4 (tree single_tree) 3%float (root_id (tree single_tree)) 0
     = Fault AssertionFailed
  /\ path_length true 4 (tree single_tree) 3%float (root_id (tree single_tree)) 0
     = Ok 0%float.
Proof. repeat split. Qed.

(** C1 (the code does otherwise).  The forest of one tree with
    [max_depth = 1] built on the sequence [5] holds the tree of C5.  For
    the value [3] and every data size [score], compiled with NDEBUG, returns
    two to the power [h / c(n)] for the path length [0]; with the assertion
    compiled in, the default, the same call fails the assertion of
    [path_length] at position [0] and returns nothing. *)
Theorem score_aborts_on_built_forest :
  IForest_build rand_zero (new_forest 1 1) 0 single_world
  = Ok (single_forest, {| heap := [[5]%float]; rand_calls := 1 |})
  /\ (forall libm_log libm_pow n w,
        @score float double_fp (double_cmath libm_log libm_pow) true 3%float n
          (single_forest, w)
        = Ok (@score_spec float double_fp (double_cmath libm_log libm_pow) [0%float]
                (@calc_depth float double_fp (double_cmath libm_log libm_pow) n),
              (single_forest, w)))
  /\ (forall libm_log libm_pow n w,
        @score float double_fp (double_cmath libm_log libm_pow) false 3%float n
          (single_forest, w)
        = Fault AssertionFailed).
Proof. repeat split. Qed.

(** C8 (the code does otherwise).  On the range [5; 4; 7; 3] with the
    anchor at position [0] the partition step first swaps [5] with [3]; from
    then on the predicate, which reads the anchor through a reference into
    the buffer, compares with [3].  The step ends with [3; 4; 7; 5] and
    [mid = 1]: the element [4], less than the anchor value [5], is in the
    right-hand part, [mid] is not the number of elements less than [5],
    which is [2], and the split value the node then stores is [3], as the
    tree [build] makes of that sequence shows. *)
Theorem partition_reads_moved_anchor :
  at_index [5; 4; 7; 3]%float 0 = Ok 5%float
  /\ std_partition [5; 4; 7; 3]%float 0 0 4 = Ok ([3; 4; 7; 5]%float, 1)
  /\ partitioned 5%float [5; 4; 7; 3]%float [3; 4; 7; 5]%float 0 1 4 = false
  /\ range_of [3; 4; 7; 5]%float 1 4 = [4; 7; 5]%float
  /\ fp_lt 4%float 5%float = true
  /\ length (List.filter (fun v => fp_lt v 5%float) (range_of [5; 4; 7; 3]%float 0 4)) = 2%nat
  /\ at_index [3; 4; 7; 5]%float 0 = Ok 3%float
  /\ partitioned 3%float [5; 4; 7; 3]%float [3; 4; 7; 5]%float 0 1 4 = false
  /\ ITree_build rand_zero (new_tree 1) 0 moved_anchor_world
     = Ok ({| tree := [default_node; default_node;
                       {| split_value := 3%float; left := 0; right := 1 |}];
              max_depth := 1 |},
           {| heap := heap moved_anchor_world; rand_calls := 1 |}).
Proof. repeat split. Qed.

Lemma fresh_tree_assertion_witness :
  exists sh,
    tree single_tree = flatten 0 sh
    /\ (below_left_spine sh 3%float = true ->
        path_length false (S (length (tree single_tree))) (tree single_tree) 3%float
          (root_id (tree single_tree)) 0
        = Fault AssertionFailed).
Proof.
  refine (fresh_tree_assertion rand_zero 1 0 single_world
            {| heap := [[5]%float]; rand_calls := 1 |} single_tree 3%float eq_refl _).
  unfold fits. simpl. lia.
Defined.

Lemma score_divides_by_zero_witness :
  calc_depth (T := R) 1 = 0%R
  /\ score true 3%R 1 (real_forest, real_world)
     = Ok (Rpower 2 ((0 + IZR (-1)) / IZR 1 / 0), (real_forest, real_world)).
Proof.
  refine (score_divides_by_zero true 3%R (0 + IZR (-1))%R 1 real_forest real_world _ eq_refl).
  lia.
Defined.

Lemma calc_depth_real_positive_witness : (0 < calc_depth (T := R) 6)%R.
Proof. apply (calc_depth_real_positive 6). lia. Defined.

Lemma shuffle_permutes_witness :
  exists vec' calls',
    shuffle rand_odd [5; 4; 7; 3; 1]%float 0 = Ok (vec', calls')
    /\ vec' ≡ₚ [5; 4; 7; 3; 1]%float.
Proof.
  refine (shuffle_permutes rand_odd [5; 4; 7; 3; 1]%float 0 _ _).
  - discriminate.
  - simpl. lia.
Defined.

Lemma partition_permutes_witness :
  exists data' mid,
    std_partition [5; 4; 7; 3]%float 0 0 4 = Ok (data', mid)
    /\ data' ≡ₚ [5; 4; 7; 3]%float /\ 0 <= mid <= 4.
Proof.
  refine (partition_permutes [5; 4; 7; 3]%float 0 0 4 _ _ _); simpl; lia.
Defined.

Lemma partition_guarantee_witness :
  exists data' mid,
    std_partition [5; 4; 7; 3]%R 0 0 4 = Ok (data', Z.of_nat mid)
    /\ weakly_partitioned 5%R 0 data' (Z.to_nat 0) mid (Z.to_nat 4)
    /\ (forall i, (Z.to_nat 0 <= i < mid)%nat -> data' !! i <> Some 5%R)
    /\ 0 <= Z.of_nat mid <= 4.
Proof.
  refine (partition_guarantee [5; 4; 7; 3]%R 0 0 4 5%R real_lt_irrefl real_lt_trans _ _ eq_refl);
    simpl; lia.
Defined.

Lemma degenerate_build_single_leaf_witness :
  ITree_build rand_odd (new_tree 0) 0 sample_world
  = Ok ({| tree := tree (new_tree 0) ++ [default_node]; max_depth := 0 |}, sample_world).
Proof.
  refine (degenerate_build_single_leaf rand_odd (new_tree 0) 0 sample_world
            [5; 4; 7; 3; 1]%float eq_refl _).
  right. simpl. lia.
Defined.

Lemma well_formed_single_tree : well_formed (tree single_tree).
Proof.
  intros i n Hi. destruct i as [|[|[|i]]]; simpl in Hi; try discriminate;
    injection Hi as <-; simpl; lia.
Qed.

Lemma ITree_build_size_witness :
  exists t' w',
    ITree_build rand_odd (new_tree 2) 0 sample_world = Ok (t', w')
    /\ Z.of_nat (length (tree (new_tree (T := float) 2))) < Z.of_nat (length (tree t'))
       < Z.of_nat (length (tree (new_tree (T := float) 2))) + 2 ^ (Z.max 0 2 + 1)
    /\ (tree (new_tree (T := float) 2) = [] -> 2 <= 61 -> fits (tree t')).
Proof.
  exact (ITree_build_size rand_odd rand_odd_nonneg (new_tree 2) 0 sample_world
           [5; 4; 7; 3; 1]%float eq_refl).
Defined.

Lemma split_values_from_sequence_witness :
  exists t' w' new,
    ITree_build rand_odd (new_tree 2) 0 sample_world = Ok (t', w')
    /\ tree t' = [] ++ new
    /\ Forall (fun n => n = default_node \/ split_value n ∈ [5; 4; 7; 3; 1]%float) new.
Proof.
  exact (split_values_from_sequence rand_odd rand_odd_nonneg (new_tree 2) 0 sample_world
           [5; 4; 7; 3; 1]%float eq_refl).
Defined.

Lemma rebuild_same_answers_witness :
  exists t' w' t0 w0,
    ITree_build rand_odd single_tree 0 sample_world = Ok (t', w')
    /\ ITree_build rand_odd (new_tree 1) 0 sample_world = Ok (t0, w0)
    /\ (fits (tree t') -> fits (tree t0) ->
        w' = w0
        /\ (forall value,
              path_length true (S (length (tree t'))) (tree t') value (root_id (tree t')) 0
              = path_length true (S (length (tree t0))) (tree t0) value (root_id (tree t0)) 0)
        /\ (tree single_tree <> [] -> forall value,
              path_length false (S (length (tree t'))) (tree t') value (root_id (tree t')) 0
              = path_length true (S (length (tree t'))) (tree t') value (root_id (tree t')) 0)).
Proof.
  exact (rebuild_same_answers rand_odd rand_odd_nonneg single_tree 0 sample_world
           [5; 4; 7; 3; 1]%float eq_refl).
Defined.

Lemma IForest_build_trees_witness :
  exists f' w',
    IForest_build rand_odd (new_forest 2 2) 0 sample_world = Ok (f', w')
    /\ length (trees f') = length (trees (new_forest (T := float) 2 2))
    /\ Forall2 (grown_from rand_odd [5; 4; 7; 3; 1]%float)
         (trees (new_forest 2 2)) (trees f')
    /\ Forall2 (fun t t' =>
         max_depth t' = max_depth t
         /\ exists new,
             tree t' = tree t ++ new
             /\ Forall (fun n => n = default_node
                                \/ split_value n ∈ [5; 4; 7; 3; 1]%float) new)
         (trees (new_forest 2 2)) (trees f').
Proof.
  refine (IForest_build_trees rand_odd rand_odd_nonneg (new_forest 2 2) 0 sample_world
            [5; 4; 7; 3; 1]%float eq_refl _ _).
  - discriminate.
  - simpl. lia.
Defined.

Lemma shuffle_consumes_witness :
  exists vec',
    shuffle rand_odd [5; 4; 7; 3; 1]%float 2 = Ok (vec', (2 + (5 - 1))%nat)
    /\ length vec' = 5%nat.
Proof.
  refine (shuffle_consumes rand_odd [5; 4; 7; 3; 1]%float 2 _ _).
  - discriminate.
  - simpl. lia.
Defined.

Lemma query_stays_in_bounds_witness :
  (exists r,
     path_length false (S (length (tree single_tree))) (tree single_tree) 7%float 2 0
     = Ok (fp_cast r)
     /\ 0 - 1 <= r <= 0 - 1 + 2)
  \/ (false = false
      /\ path_length false (S (length (tree single_tree))) (tree single_tree) 7%float 2 0
         = Fault AssertionFailed).
Proof.
  refine (query_stays_in_bounds (tree single_tree) 2 well_formed_single_tree _
            false 7%float 0).
  simpl. lia.
Defined.

Lemma score_before_build_witness :
  score true 3%R 6 (new_forest 1 3, real_world) = Fault UndefinedBehaviour.
Proof.
  exact (score_before_build true 3%R 6 (new_forest 1 3) (new_tree 3) [] real_world
           eq_refl eq_refl).
Defined.

Lemma score_real_range_witness :
  exists f' w',
    IForest_build rand_odd (new_forest 1 3) 0 real_world = Ok (f', w')
    /\ (Forall (fun t => fits (tree t)) (trees f') ->
        forall value wq,
          exists x,
            score true value 6 (f', wq) = Ok (x, (f', wq))
            /\ (1 <= x <= Rpower 2 (IZR (3 - 1) / calc_depth 6))%R).
Proof.
  refine (score_real_range rand_odd (new_forest 1 3) 0 real_world [1%R] 6 3
            rand_odd_nonneg eq_refl _ _ _ _ _).
  - discriminate.
  - simpl. lia.
  - discriminate.
  - repeat constructor; simpl; lia.
  - lia.
Defined.

Lemma score_below_minimum_aborts_witness :
  exists f' w',
    IForest_build rand_odd (new_forest 1 3) 0 real_world = Ok (f', w')
    /\ (Forall (fun t => fits (tree t)) (trees f') ->
        forall n wq, score false 0%R n (f', wq) = Fault AssertionFailed).
Proof.
  refine (score_below_minimum_aborts rand_odd rand_odd_nonneg (new_forest 1 3)
            (new_tree 3) [] 0 real_world [1%R] 0%R eq_refl _ _ eq_refl eq_refl _).
  - discriminate.
  - simpl. lia.
  - intros x Hx. apply list_elem_of_singleton in Hx as ->.
    cbn [fp_lt real_fp]. unfold real_lt. destruct (Rlt_dec 0 1); [reflexivity|lra].
Defined.



Lemma constructed_tree_witness :
  ITree_ctor (T := float) sample_max_size (fun _ => true) (-1) = Fault LengthError
  /\ ITree_ctor (T := float) sample_max_size (fun _ => true) 3 = Ok (new_tree 3).
Proof.
  assert (0 <= sample_max_size < 2 ^ 63) as Hmax by (split; [discriminate|reflexivity]).
  assert (3 <= sample_max_size) as Hle by discriminate.
  split.
  - refine (proj1 (constructed_tree sample_max_size (fun _ => true) (-1) _ Hmax) _); lia.
  - refine (proj2 (proj2 (constructed_tree sample_max_size (fun _ => true) 3 _ Hmax))
              _ Hle (or_intror eq_refl)); lia.
Defined.
